(** * Pants: the ant-colony solver ([pants/solver.py])

    A shallow embedding of the [Solver] class and the properties of its
    iteration loop: colony construction, the driving loop of
    [find_solutions] with its local decay, the global update of
    [update_scent], the elitist trace and the tracking of the best ant.

    Conventions of the embedding.
    - Python numbers (pheromone levels, distances, [rho], [q], [t0],
      [elite]) are exact rationals [Q]: the arithmetic of the solver is
      read without rounding, and nothing is stated here that rounding
      would undo (a strict rise, a level that stays positive); module
      [Binary64] reads the lines concerned on floats.  [ant_count] and
      [limit] are integers [Z].
    - [world.edges] is a dictionary from move keys to [Edge] objects.  An
      [Edge] object is a reference [EdgeRef]; the [pheromone] attribute of
      all edges is the store [EdgeRef -> Q].  Two keys may resolve to the
      same [Edge] object.
    - An [Ant] object is a pair of an object identity and a state; the
      state and its methods come from the [Ant] class, which the solver
      only uses through [can_move], [move], [distance], [moves], the
      ordering and [clone].
    - The global [random] generator is an explicit value threaded through
      the calls.
    - A Python exception is the outcome [Raise]; the [while] loop of
      [find_solutions] runs on fuel and [OutOfFuel] is the outcome of a
      run that the fuel did not let finish. *)

From Stdlib Require Import QArith Qpower Floats.PrimFloat.
From stdpp Require Import base functions fin_maps gmap option list sorting.

(** ** Outcomes: values, Python exceptions, exhausted fuel *)

Inductive exn : Set := KeyError | IndexError | ZeroDivisionError.

Inductive outcome (A : Type) : Type :=
| Ok (a : A)
| Raise (e : exn)
| OutOfFuel.
Arguments Ok {A} a.
Arguments Raise {A} e.
Arguments OutOfFuel {A}.

Definition obind {A B} (c : outcome A) (k : A → outcome B) : outcome B :=
  match c with
  | Ok a => k a
  | Raise e => Raise e
  | OutOfFuel => OutOfFuel
  end.

Notation "'do' x <- c ; k" := (obind c (λ x, k))
  (at level 10, x name, c at level 100, k at level 200,
   format "'[v' 'do'  x  <-  c ; '/' k ']'").
Notation "'do' ' p <- c ; k" := (obind c (λ x, match x with p => k end))
  (at level 10, p pattern, c at level 100, k at level 200,
   format "'[v' 'do'  ' p  <-  c ; '/' k ']'").

(** [for x in xs: acc = f(acc, x)], stopping at the first exception. *)
Fixpoint for_each {A S} (f : S → A → outcome S) (xs : list A) (s : S)
  : outcome S :=
  match xs with
  | [] => Ok s
  | x :: xs' => do s' <- f s x; for_each f xs' s'
  end.

(** ** The world *)

(** Nodes and [Edge] objects are identified by naturals; a move is the
    key of an edge in [world.edges], a pair of nodes; the store gives the
    [pheromone] attribute of every [Edge] object. *)
Abbreviation Node := nat (only parsing).
Abbreviation Move := (nat * nat)%type (only parsing).
Abbreviation EdgeRef := nat (only parsing).
Abbreviation Store := (nat → Q) (only parsing).

(** Modelled from the spec: the [World] class of [pants/world.py], of
    which the solver has only the uses (section 4.3): [nodes], an ordered
    sequence, and [edges], a mapping from move keys to [Edge] objects. *)
Record World := {
  nodes : list Node;
  edges : gmap (nat * nat) nat
}.

(** [world.edges[m]] *)
Definition edge_at (w : World) (m : Move) : outcome EdgeRef :=
  match edges w !! m with
  | Some e => Ok e
  | None => Raise KeyError
  end.

(** The [Edge] objects of the world: [world.edges.values()]. *)
Definition edge_values (w : World) : list EdgeRef :=
  (map_to_list (edges w)).*2.

(** ** The random generator

    A generator is a tape of naturals and a read position;
    [randrange n] reads one cell and reduces it below [n].  Every sequence
    of draws is the one of some tape.  ([random.randrange(0)] raises; the
    solver draws below the length of a list it has found not empty.) *)

Record Rng := { tape : nat → nat; pos : nat }.

Definition rng_next (g : Rng) : Rng :=
  {| tape := tape g; pos := S (pos g) |}.

Definition randrange (n : nat) (g : Rng) : nat * Rng :=
  (tape g (pos g) `mod` n, rng_next g).

(** ** Python arithmetic on rationals *)

Definition Qltb (x y : Q) : bool := negb (Qle_bool y x).

(** [max(a, b)]: the first argument unless the second is greater. *)
Definition py_max (a b : Q) : Q := if Qltb a b then b else a.

(** [x / y] *)
Definition py_div (x y : Q) : outcome Q :=
  if Qeq_bool y 0 then Raise ZeroDivisionError else Ok (x / y)%Q.

(** Truth value of a number: [if x:] *)
Definition truthy (x : Q) : bool := negb (Qeq_bool x 0).

(** [range(n)] *)
Definition py_range (n : Z) : list nat := seq 0 (Z.to_nat n).

(** ** The Ant class *)

(** Modelled from the spec: the [Ant] class of [pants/ant.py], of which
    the solver has only the uses.  Its contract (section 4.2): [can_move]
    is a query on the ant alone; [move] commits to one edge, chosen with
    the pheromone levels and the random generator, returns the key of the
    edge and updates the ant; [distance] and [moves] read the accumulated
    length and the keys traversed so far.  An ant reaches the world and
    the pheromone through its reference to the world: they are arguments
    of [move] here, and [move] does not write the pheromone. *)
Class AntClass (A : Type) := {
  Ant_init : World → Q → Q → Node → A;
  can_move : A → bool;
  move : World → Store → Rng → A → Move * A * Rng;
  distance : A → Q;
  moves : A → list Move
}.

(** An [Ant] object: an identity and a state. *)
Record Ant (A : Type) := { oid : nat; body : A }.
Arguments oid {A} _.
Arguments body {A} _.

(** ** The solver *)

Record Solver := {
  world : World;
  rho : Q;
  q : Q;
  t0 : Q;
  alpha : Q;
  beta : Q;
  ant_count : Z;
  elite : Q
}.

(** [Solver(world)] with the defaults of [__init__]. *)
Definition Solver_init (w : World) : Solver :=
  {| world := w; rho := (8 # 10)%Q; q := 1%Q; t0 := (1 # 100)%Q;
     alpha := 1%Q; beta := 3%Q; ant_count := 10%Z; elite := (5 # 10)%Q |}.

Definition with_ant_count (n : Z) (s : Solver) : Solver :=
  {| world := world s; rho := rho s; q := q s; t0 := t0 s;
     alpha := alpha s; beta := beta s; ant_count := n; elite := elite s |}.

Definition with_elite (x : Q) (s : Solver) : Solver :=
  {| world := world s; rho := rho s; q := q s; t0 := t0 s;
     alpha := alpha s; beta := beta s; ant_count := ant_count s;
     elite := x |}.

(** [reset_pheromone] *)
Definition reset_pheromone (s : Solver) (ph : Store) : Store :=
  fold_left (λ ph e, <[e := t0 s]> ph) (edge_values (world s)) ph.

Section Solver.
Context {A : Type} `{AntClass A}.

(** Modelled from the spec: [Ant.__lt__], the order of ants by accumulated
    distance, ascending. *)
Definition ant_lt (a b : Ant A) : bool :=
  Qltb (distance (body a)) (distance (body b)).

(** Modelled from the spec: [Ant.clone], a new object with a copy of the
    state. *)
Definition clone (a : Ant A) (nid : nat) : Ant A :=
  {| oid := nid; body := body a |}.

(** [sorted(ants)]: the stable sort of Python, which compares with [<]
    only.  An ant is placed before the first ant of the sorted rest that
    is not smaller than it. *)
Fixpoint insert_sorted (x : Ant A) (l : list (Ant A)) : list (Ant A) :=
  match l with
  | [] => [x]
  | y :: l' => if ant_lt y x then y :: insert_sorted x l' else x :: y :: l'
  end.

Definition sorted (ants : list (Ant A)) : list (Ant A) :=
  foldr insert_sorted [] ants.

(** [Ant(self.world, self.alpha, self.beta, start=start)] *)
Definition new_ant (s : Solver) (nid : nat) (start : Node) : Ant A :=
  {| oid := nid; body := Ant_init (world s) (alpha s) (beta s) start |}.

(** [round_robin_ants]: the list comprehension over [range(ant_count)];
    [nid] is the identity of the next object. *)
Definition round_robin_ants (s : Solver) (nid : nat)
  : outcome (list (Ant A) * nat) :=
  let n := length (nodes (world s)) in
  for_each
    (λ '(ants, nid) i,
       if n =? 0 then Raise ZeroDivisionError
       else match nodes (world s) !! (i `mod` n) with
            | Some start => Ok (ants ++ [new_ant s nid start], S nid)
            | None => Raise IndexError
            end)
    (py_range (ant_count s)) ([], nid).

(** The [while] loop of [random_ants].  [ant_count] is read by the guard
    and never written. *)
Fixpoint random_ants_loop (fuel : nat) (s : Solver) (starts : list Node)
    (ants : list (Ant A)) (g : Rng) (nid : nat)
  : outcome (list (Ant A) * Rng * nat) :=
  match fuel with
  | O => OutOfFuel
  | S fuel' =>
      if (0 <? ant_count s)%Z && (0 <? length starts) then
        let '(r, g') := randrange (length starts) g in
        match starts !! r with
        | Some start =>
            random_ants_loop fuel' s (delete r starts)
              (ants ++ [new_ant s nid start]) g' (S nid)
        | None => Raise IndexError
        end
      else Ok (ants, g, nid)
  end.

(** [random_ants]: [starts] shrinks at every turn of the loop, so one more
    turn than it has elements is all the loop can take. *)
Definition random_ants (s : Solver) (g : Rng) (nid : nat)
  : outcome (list (Ant A) * Rng * nat) :=
  random_ants_loop (S (length (nodes (world s)))) s (nodes (world s)) [] g nid.

(** The body of [for ant in ants] in [find_solutions]: the turn of one
    ant.  The product [pheromone * rho] is exact here; [Binary64.decay]
    is the same product on floats. *)
Definition turn (s : Solver) (ant : Ant A) (ph : Store) (g : Rng)
    (ants_done : nat) : outcome (Ant A * Store * Rng * nat) :=
  if can_move (body ant) then
    let '(m, a', g') := move (world s) ph g (body ant) in
    do e <- edge_at (world s) m;
    Ok ({| oid := oid ant; body := a' |}, <[e := (ph e * rho s)%Q]> ph, g',
        ants_done)
  else Ok (ant, ph, g, S ants_done).

(** The [for ant in ants] loop of [find_solutions]: one pass over the
    colony. *)
Fixpoint sweep (s : Solver) (ants : list (Ant A)) (ph : Store) (g : Rng)
    (ants_done : nat) : outcome (list (Ant A) * Store * Rng * nat) :=
  match ants with
  | [] => Ok ([], ph, g, ants_done)
  | ant :: rest =>
      do '(ant', ph1, g1, d1) <- turn s ant ph g ants_done;
      do '(rest', ph2, g2, d2) <- sweep s rest ph1 g1 d1;
      Ok (ant' :: rest', ph2, g2, d2)
  end.

(** [k] passes over the colony, one after the other. *)
Fixpoint sweeps (s : Solver) (k : nat) (ants : list (Ant A)) (ph : Store)
    (g : Rng) : outcome (list (Ant A) * Store * Rng) :=
  match k with
  | O => Ok (ants, ph, g)
  | S k' =>
      do '(ants', ph', g', _) <- sweep s ants ph g 0;
      sweeps s k' ants' ph' g'
  end.

(** The [while ants_done < len(ants)] loop of [find_solutions]. *)
Fixpoint find_solutions_loop (fuel : nat) (s : Solver) (ants : list (Ant A))
    (ph : Store) (g : Rng) (ants_done : nat)
  : outcome (list (Ant A) * Store * Rng) :=
  match fuel with
  | O => OutOfFuel
  | S fuel' =>
      if ants_done <? length ants then
        do '(ants', ph', g', d) <- sweep s ants ph g 0;
        find_solutions_loop fuel' s ants' ph' g' d
      else Ok (ants, ph, g)
  end.

Definition find_solutions (fuel : nat) (s : Solver) (ants : list (Ant A))
    (ph : Store) (g : Rng) : outcome (list (Ant A) * Store * Rng) :=
  find_solutions_loop fuel s ants ph g 0.

(** The better half: [sorted(ants)[:len(ants) // 2]] *)
Definition better_half (ants : list (Ant A)) : list (Ant A) :=
  take (length ants / 2) (sorted ants).

(** The body of [for move in a.moves] in [update_scent]. *)
Definition deposit (s : Solver) (p : Q) (ph : Store) (m : Move)
  : outcome Store :=
  do e <- edge_at (world s) m;
  Ok (<[e := py_max (t0 s) ((1 - rho s) * ph e + p)%Q]> ph).

(** The body of [for a in ants] in [update_scent]. *)
Definition lay_scent (s : Solver) (ph : Store) (a : Ant A) : outcome Store :=
  do p <- py_div (q s) (distance (body a));
  for_each (deposit s p) (moves (body a)) ph.

(** [update_scent] *)
Definition update_scent (s : Solver) (ants : list (Ant A)) (ph : Store)
  : outcome Store :=
  for_each (lay_scent s) (better_half ants) ph.

(** [get_best_ant] *)
Definition get_best_ant (ants : list (Ant A)) : outcome (Ant A) :=
  match sorted ants with
  | a :: _ => Ok a
  | [] => Raise IndexError
  end.

(** The body of [for m in ant.moves] in [trace_elite]: the target
    [self.world.edges[m]] is resolved before the right-hand side.  The
    sum is exact here; [Binary64.trace_move] is the same line on floats. *)
Definition trace_move (s : Solver) (ant : Ant A) (ph : Store) (m : Move)
  : outcome Store :=
  do e <- edge_at (world s) m;
  do d <- py_div (elite s * q s) (distance (body ant));
  Ok (<[e := (ph e + d)%Q]> ph).

(** [trace_elite] *)
Definition trace_elite (s : Solver) (ant : Ant A) (ph : Store)
  : outcome Store :=
  if truthy (elite s) then for_each (trace_move s ant) (moves (body ant)) ph
  else Ok ph.

(** (Re-)Build the ant colony. *)
Definition build_colony (s : Solver) (g : Rng) (nid : nat)
  : outcome (list (Ant A) * Rng * nat) :=
  if (ant_count s <? 1)%Z then
    do '(ants, nid') <- round_robin_ants s nid; Ok (ants, g, nid')
  else random_ants s g nid.

(** What one turn of the loop of [solve] and [solutions] leaves behind. *)
Record Iteration := {
  it_colony : list (Ant A);      (* [ants] after [find_solutions] *)
  it_scent : Store;              (* the pheromone after [update_scent] *)
  it_local_best : Ant A;
  it_improved : bool;            (* was [global_best] assigned *)
  it_global_best : Ant A;
  it_pheromone : Store;          (* the pheromone at the end of the turn *)
  it_rng : Rng;
  it_next_id : nat
}.

(** [global_best is None or local_best < global_best] *)
Definition improves (local_best : Ant A) (global_best : option (Ant A))
  : bool :=
  match global_best with
  | None => true
  | Some gb => ant_lt local_best gb
  end.

(** The body of [for i in range(limit)], the same in [solve] and in
    [solutions] but for the [yield]. *)
Definition iteration (fuel : nat) (s : Solver) (global_best : option (Ant A))
    (ph : Store) (g : Rng) (nid : nat) : outcome Iteration :=
  do '(ants0, g1, nid1) <- build_colony s g nid;
  do '(ants, ph1, g2) <- find_solutions fuel s ants0 ph g1;
  do ph2 <- update_scent s ants ph1;
  do local_best <- get_best_ant ants;
  let '(gb, nid2) :=
    match global_best with
    | Some gb0 =>
        if improves local_best global_best
        then (clone local_best nid1, S nid1) else (gb0, nid1)
    | None => (clone local_best nid1, S nid1)
    end in
  do ph3 <- (if truthy (elite s) then trace_elite s gb ph2 else Ok ph2);
  Ok {| it_colony := ants; it_scent := ph2; it_local_best := local_best;
        it_improved := improves local_best global_best;
        it_global_best := gb; it_pheromone := ph3; it_rng := g2;
        it_next_id := nid2 |}.

(** The turns of the loop, in order, each started from what the one
    before left. *)
Fixpoint iterations (fuel : nat) (s : Solver) (n : nat)
    (global_best : option (Ant A)) (ph : Store) (g : Rng) (nid : nat)
  : outcome (list Iteration) :=
  match n with
  | O => Ok []
  | S n' =>
      do it <- iteration fuel s global_best ph g nid;
      do rest <- iterations fuel s n' (Some (it_global_best it))
                   (it_pheromone it) (it_rng it) (it_next_id it);
      Ok (it :: rest)
  end.

(** The loop of [solve]. *)
Fixpoint solve_loop (fuel : nat) (s : Solver) (n : nat)
    (global_best : option (Ant A)) (ph : Store) (g : Rng) (nid : nat)
  : outcome (option (Ant A)) :=
  match n with
  | O => Ok global_best
  | S n' =>
      do it <- iteration fuel s global_best ph g nid;
      solve_loop fuel s n' (Some (it_global_best it))
        (it_pheromone it) (it_rng it) (it_next_id it)
  end.

(** [solve(limit)] *)
Definition solve (fuel : nat) (s : Solver) (limit : Z) (ph : Store) (g : Rng)
    (nid : nat) : outcome (option (Ant A)) :=
  solve_loop fuel s (Z.to_nat limit) None (reset_pheromone s ph) g nid.

(** The body of the loop of [solutions] down to its [yield]: the same as
    in [iteration], the pheromone being the one [update_scent] left. *)
Definition iteration_head (fuel : nat) (s : Solver)
    (global_best : option (Ant A)) (ph : Store) (g : Rng) (nid : nat)
  : outcome Iteration :=
  do '(ants0, g1, nid1) <- build_colony s g nid;
  do '(ants, ph1, g2) <- find_solutions fuel s ants0 ph g1;
  do ph2 <- update_scent s ants ph1;
  do local_best <- get_best_ant ants;
  let '(gb, nid2) :=
    match global_best with
    | Some gb0 =>
        if improves local_best global_best
        then (clone local_best nid1, S nid1) else (gb0, nid1)
    | None => (clone local_best nid1, S nid1)
    end in
  Ok {| it_colony := ants; it_scent := ph2; it_local_best := local_best;
        it_improved := improves local_best global_best;
        it_global_best := gb; it_pheromone := ph2; it_rng := g2;
        it_next_id := nid2 |}.

(** The body of the loop of [solutions] after its [yield]: the elitist
    trace. *)
Definition iteration_tail (s : Solver) (h : Iteration) : outcome Iteration :=
  do ph3 <- (if truthy (elite s)
             then trace_elite s (it_global_best h) (it_scent h)
             else Ok (it_scent h));
  Ok {| it_colony := it_colony h; it_scent := it_scent h;
        it_local_best := it_local_best h; it_improved := it_improved h;
        it_global_best := it_global_best h; it_pheromone := ph3;
        it_rng := it_rng h; it_next_id := it_next_id h |}.

(** The loop of [solutions]: the ants yielded, and how the generator
    ended.  The ant of a turn is yielded before the elitist trace of the
    turn is run: it has been handed out when the trace raises. *)
Fixpoint solutions_loop (fuel : nat) (s : Solver) (n : nat)
    (global_best : option (Ant A)) (ph : Store) (g : Rng) (nid : nat)
  : list (Ant A) * outcome unit :=
  match n with
  | O => ([], Ok tt)
  | S n' =>
      match iteration_head fuel s global_best ph g nid with
      | Ok h =>
          let yielded :=
            if it_improved h then [it_global_best h] else [] in
          match iteration_tail s h with
          | Ok it =>
              let '(ys, r) :=
                solutions_loop fuel s n' (Some (it_global_best it))
                  (it_pheromone it) (it_rng it) (it_next_id it) in
              (yielded ++ ys, r)
          | Raise e => (yielded, Raise e)
          | OutOfFuel => (yielded, OutOfFuel)
          end
      | Raise e => ([], Raise e)
      | OutOfFuel => ([], OutOfFuel)
      end
  end.

(** [solutions(limit)], consumed to its end. *)
Definition solutions (fuel : nat) (s : Solver) (limit : Z) (ph : Store)
    (g : Rng) (nid : nat) : list (Ant A) * outcome unit :=
  solutions_loop fuel s (Z.to_nat limit) None (reset_pheromone s ph) g nid.

(** *** Notions the properties are stated with *)

(** The order of ants by distance, equal distances included. *)
Definition ant_le (a b : Ant A) : Prop :=
  (distance (body a) <= distance (body b))%Q.

(** The ants of accumulated distance [d], in the order of the list. *)
Definition at_distance (d : Q) (ants : list (Ant A)) : list (Ant A) :=
  List.filter (λ a, Qeq_bool (distance (body a)) d) ants.

(** The edge [e] of the world is the one the key [m] resolves to. *)
Definition resolves (w : World) (e : EdgeRef) (m : Move) : bool :=
  bool_decide (edges w !! m = Some e).

(** The traversals of edge [e] in a list of moves. *)
Definition uses (w : World) (e : EdgeRef) (ms : list Move) : list Move :=
  List.filter (resolves w e) ms.

(** One write of [update_scent] on an edge of level [cur]. *)
Definition relay (s : Solver) (cur p : Q) : Q :=
  py_max (t0 s) ((1 - rho s) * cur + p)%Q.

(** The deposits [q / a.distance] that the ants of [sel] make on edge
    [e], one per traversal, in the order of the loops. *)
Definition laid_on (s : Solver) (e : EdgeRef) (sel : list (Ant A)) : list Q :=
  flat_map
    (λ a, map (λ _, (q s / distance (body a))%Q)
            (uses (world s) e (moves (body a))))
    sel.

(** Every edge of the world is at the floor [t0] or above. *)
Definition floor_ok (s : Solver) (ph : Store) : Prop :=
  ∀ e, e ∈ edge_values (world s) → (t0 s <= ph e)%Q.

(** The store [ph'] is [ph] with every edge multiplied by [rho] some
    number of times, and only edges of the world at all. *)
Definition decayed (s : Solver) (ph ph' : Store) : Prop :=
  ∀ e : nat, ∃ k : nat,
    ph' e = Nat.iter k (λ x : Q, (x * rho s)%Q) (ph e)
    ∧ (k ≠ 0 → ∃ m, edges (world s) !! m = Some e).

(** No ant of the colony can move. *)
Definition all_done (ants : list (Ant A)) : Prop :=
  Forall (λ a, can_move (body a) = false) ants.

(** The moves the ants of a colony are known to have left, and the ants
    that have none. *)
Definition colony_budget (budget : A → nat) (ants : list (Ant A)) : nat :=
  sum_list_with (λ a, budget (body a)) ants.

Definition count_done (ants : list (Ant A)) : nat :=
  length (List.filter (λ a, negb (can_move (body a))) ants).

(** The ants of a colony are in states that ants go through. *)
Definition colony_inv (inv : A → Prop) (ants : list (Ant A)) : Prop :=
  Forall (λ a, inv (body a)) ants.

(** The elitist deposit [elite * q / ant.distance]. *)
Definition elite_deposit (s : Solver) (ant : Ant A) : Q :=
  (elite s * q s / distance (body ant))%Q.

(** A natural number as a rational. *)
Definition Qnat (n : nat) : Q := inject_Z (Z.of_nat n).

(** A finished ant: in a state that ants go through, and unable to move. *)
Definition good (inv : A → Prop) (a : Ant A) : Prop :=
  inv (body a) ∧ can_move (body a) = false.

(** What a turn of the loop started with [global_best] and the next object
    identity [nid] leaves in a world of [n] nodes and a colony of one ant
    per node: finished ants with the identities from [nid] on, the ant of
    least distance as local best, and as global best either the one
    before or a new object that copies the local best. *)
Definition step_ok (s : Solver) (inv : A → Prop)
    (global_best : option (Ant A)) (nid : nat) (it : Iteration) : Prop :=
  let n := length (nodes (world s)) in
  it_colony it ≠ []
  ∧ Forall (good inv) (it_colony it)
  ∧ (∀ a, a ∈ it_colony it → nid ≤ oid a < nid + n)
  ∧ it_local_best it ∈ it_colony it
  ∧ (∀ a, a ∈ it_colony it → ant_le (it_local_best it) a)
  ∧ it_improved it = improves (it_local_best it) global_best
  ∧ (if it_improved it
     then it_global_best it = clone (it_local_best it) (nid + n)
          ∧ it_next_id it = S (nid + n)
     else global_best = Some (it_global_best it)
          ∧ it_next_id it = nid + n).

(** The turns of a run, each started from what the one before left. *)
Fixpoint chain (s : Solver) (inv : A → Prop) (global_best : option (Ant A))
    (nid : nat) (log : list Iteration) : Prop :=
  match log with
  | [] => True
  | it :: rest =>
      step_ok s inv global_best nid it
      ∧ chain s inv (Some (it_global_best it)) (it_next_id it) rest
  end.

(** [global_best] after the turns of [log]. *)
Definition final_best (global_best : option (Ant A)) (log : list Iteration)
  : option (Ant A) :=
  fold_left (λ _ it, Some (it_global_best it)) log global_best.

(** The ants that [solutions] yields in the turns of [log]. *)
Definition yields (log : list Iteration) : list (Ant A) :=
  it_global_best <$> List.filter it_improved log.

(** Strictly shorter than: the order of a decreasing sequence. *)
Definition shorter_after (a b : Ant A) : Prop :=
  (distance (body b) < distance (body a))%Q.

End Solver.

(** ** The contract of the ants

    What the solver relies on: the states that ants go through satisfy
    [inv]; an ant that moves returns a key of [world.edges] and has
    strictly less [budget] left (it can make only finitely many moves);
    the keys of [moves] are keys of [world.edges]. *)
Record AntContract {A : Type} `{AntClass A} (s : Solver) (inv : A → Prop)
    (budget : A → nat) : Prop := {
  init_inv : ∀ n, n ∈ nodes (world s) →
    inv (Ant_init (world s) (alpha s) (beta s) n);
  move_inv : ∀ ph g a, inv a → can_move a = true →
    inv (move (world s) ph g a).1.2;
  move_key : ∀ ph g a, inv a → can_move a = true →
    is_Some (edges (world s) !! (move (world s) ph g a).1.1);
  move_budget : ∀ ph g a, inv a → can_move a = true →
    budget (move (world s) ph g a).1.2 < budget a;
  moves_keys : ∀ a, inv a →
    Forall (λ m, is_Some (edges (world s) !! m)) (moves a)
}.

(** A finished ant has covered some distance. *)
Definition finished_far {A : Type} `{AntClass A} (inv : A → Prop) : Prop :=
  ∀ a, inv a → can_move a = false → (0 < distance a)%Q.

(** The fuel that lets every [find_solutions] of a run finish: the budgets
    of one ant per node, and two more passes. *)
Definition enough_fuel {A : Type} `{AntClass A} (s : Solver)
    (budget : A → nat) : nat :=
  2 + sum_list_with
        (λ n, budget (Ant_init (world s) (alpha s) (beta s) n))
        (nodes (world s)).

(** ** The arithmetic of the pheromone on floats

    Python's numbers with a point are binary64 floats.  The statements of
    this file that rounding would decide are read on them: the elitist
    deposit of [trace_elite] and the local decay of [find_solutions], as
    the source writes them, on the kernel's binary64 floats. *)
Module Binary64.

(** [if x:] on a float *)
Definition truthy (x : float) : bool := negb (x =? 0)%float.

(** [x / y] on floats *)
Definition py_div (x y : float) : outcome float :=
  if (y =? 0)%float then Raise ZeroDivisionError else Ok (x / y)%float.

(** The body of [for m in ant.moves] in [trace_elite]. *)
Definition trace_move (w : World) (elite q distance : float)
    (ph : nat → float) (m : Move) : outcome (nat → float) :=
  do e <- edge_at w m;
  do d <- py_div (elite * q) distance;
  Ok (<[e := (ph e + d)%float]> ph).

(** [trace_elite] for an ant of the given distance and moves. *)
Definition trace_elite (w : World) (elite q distance : float)
    (moves : list Move) (ph : nat → float) : outcome (nat → float) :=
  if truthy elite then for_each (trace_move w elite q distance) moves ph
  else Ok ph.

(** [pheromone *= rho] *)
Definition decay (rho ph : float) : float := (ph * rho)%float.

(** The float that [0.01] is read as. *)
Definition one_hundredth : float := 0x1.47ae147ae147bp-7%float.

End Binary64.

(** ** A colony to run the solver on

    A walker visits the nodes it has not seen, along the keys the world
    has, one unit of length per move; it picks the next node with the
    random generator alone. *)
Module Demo.

Record Walker := {
  w_world : World;
  w_pos : Node;
  w_unvisited : list Node;
  w_moves : list Move;
  w_distance : Q
}.

Definition candidates (a : Walker) : list Node :=
  filter (λ n, is_Some (edges (w_world a) !! (w_pos a, n))) (w_unvisited a).

Definition walker_init (w : World) (al be : Q) (start : Node) : Walker :=
  {| w_world := w; w_pos := start;
     w_unvisited := filter (λ n, n ≠ start) (nodes w);
     w_moves := []; w_distance := 0 |}.

Definition walker_can_move (a : Walker) : bool :=
  match candidates a with [] => false | _ :: _ => true end.

Definition walker_move (w : World) (ph : Store) (g : Rng) (a : Walker)
  : Move * Walker * Rng :=
  let '(r, g') := randrange (length (candidates a)) g in
  match candidates a !! r with
  | Some n =>
      ((w_pos a, n),
       {| w_world := w_world a; w_pos := n;
          w_unvisited := filter (λ k, k ≠ n) (w_unvisited a);
          w_moves := w_moves a ++ [(w_pos a, n)];
          w_distance := (w_distance a + 1)%Q |},
       g')
  | None => ((w_pos a, w_pos a), a, g')
  end.

#[export] Instance walker_ant : AntClass Walker := {|
  Ant_init := walker_init;
  can_move := walker_can_move;
  move := walker_move;
  distance := w_distance;
  moves := w_moves
|}.

(** Three nodes, every pair joined by one [Edge] object under both of its
    keys. *)
Definition triangle : World :=
  {| nodes := [0; 1; 2];
     edges := list_to_map
       [((0, 1), 0); ((1, 0), 0); ((0, 2), 1); ((2, 0), 1);
        ((1, 2), 2); ((2, 1), 2)] |}.

(** Five nodes and no edge: ants are placed and never move. *)
Definition five_nodes : World :=
  {| nodes := [0; 1; 2; 3; 4]; edges := ∅ |}.

Definition g0 : Rng := {| tape := λ i, i; pos := 0 |}.
Definition ph0 : Store := λ _, 0%Q.

Definition walker_inv (w : World) (a : Walker) : Prop :=
  w_world a = w ∧
  Forall (λ m, is_Some (edges w !! m)) (w_moves a) ∧
  (0 <= w_distance a)%Q ∧
  (w_moves a = [] → w_pos a ∈ nodes w ∧
     w_unvisited a = filter (λ n, n ≠ w_pos a) (nodes w) ∧
     w_distance a = 0%Q) ∧
  (w_moves a ≠ [] → 0 < w_distance a)%Q.

Definition walker_budget (a : Walker) : nat := length (w_unvisited a).

(** A finished colony to read pheromone updates on: three ants of
    distances 3, 2 and 2. *)
Definition tour (i : nat) (d : Q) (ms : list Move) : Ant Walker :=
  {| oid := i;
     body := {| w_world := triangle; w_pos := 0; w_unvisited := [];
                w_moves := ms; w_distance := d |} |}.

Definition three_ants : list (Ant Walker) :=
  [tour 0 3 [(0, 1); (1, 2)]; tour 1 2 [(0, 2); (2, 1)];
   tour 2 2 [(1, 0); (0, 2)]].

(** A finished ant of distance 2 over two edges of the triangle. *)
Definition elite_ant : Ant Walker := tour 1 2 [(0, 2); (2, 1)].

(** A colony at its start: one walker on each node of the triangle. *)
Definition three_starts : list (Ant Walker) :=
  [new_ant (Solver_init triangle) 0 0; new_ant (Solver_init triangle) 1 1;
   new_ant (Solver_init triangle) 2 2].

(** A world without nodes. *)
Definition no_nodes : World := {| nodes := []; edges := ∅ |}.

(** Two ants that never moved: no moves, distance 0. *)
Definition idle_ants : list (Ant Walker) := [tour 0 0 []; tour 1 0 []].

(** An ant that has moved over a key, and has covered no distance. *)
Definition weightless_ant : Ant Walker := tour 0 0 [(0, 1)].

(** A stray: an ant that cannot move and holds a move that is no key of
    any world here. *)
Inductive Stray : Set := stray.

Definition stray_ant : AntClass Stray := {|
  Ant_init := λ _ _ _ _, stray;
  can_move := λ _, false;
  move := λ _ _ g a, ((7, 7), a, g);
  distance := λ _, 1%Q;
  moves := λ _, [(7, 7)]
|}.

(** One node and no edge. *)
Definition one_node : World := {| nodes := [0]; edges := ∅ |}.

End Demo.

(** ** Arithmetic and loops *)

Lemma Qltb_lt (x y : Q) : Qltb x y = true ↔ (x < y)%Q.
Proof.
  unfold Qltb. rewrite negb_true_iff, <- not_true_iff_false, Qle_bool_iff.
  split; [apply Qnot_le_lt | apply Qlt_not_le].
Qed.

Lemma Qltb_ge (x y : Q) : Qltb x y = false ↔ (y <= x)%Q.
Proof.
  unfold Qltb. rewrite negb_false_iff. apply Qle_bool_iff.
Qed.

Lemma py_max_floor (a b : Q) : (a <= py_max a b)%Q.
Proof.
  unfold py_max. destruct (Qltb a b) eqn:E.
  - apply Qltb_lt in E. by apply Qlt_le_weak.
  - apply Qle_refl.
Qed.

Lemma py_div_ok (x y : Q) : ¬ (y == 0)%Q → py_div x y = Ok (x / y)%Q.
Proof.
  intros Hy. unfold py_div. destruct (Qeq_bool y 0) eqn:E; [|done].
  by apply Qeq_bool_iff in E.
Qed.

Lemma py_div_Ok_inv (x y d : Q) :
  py_div x y = Ok d → ¬ (y == 0)%Q ∧ d = (x / y)%Q.
Proof.
  unfold py_div. destruct (Qeq_bool y 0) eqn:E; [done|].
  intros [= <-]. split; [|done]. intros Hy.
  apply Qeq_bool_iff in Hy. congruence.
Qed.

Lemma edge_at_Ok (w : World) (m : Move) (e : EdgeRef) :
  edge_at w m = Ok e ↔ edges w !! m = Some e.
Proof.
  unfold edge_at. destruct (edges w !! m); split; congruence.
Qed.

Lemma for_each_app {A S} (f : S → A → outcome S) (xs ys : list A) (s : S) :
  for_each f (xs ++ ys) s = (do s' <- for_each f xs s; for_each f ys s').
Proof.
  revert s. induction xs as [|x xs IH]; intros s; simpl; [done|].
  destruct (f s x); simpl; auto.
Qed.

(** A loop of steps that all succeed and keep [P] succeeds and keeps [P]. *)
Lemma for_each_invariant {A S} (f : S → A → outcome S) (P : S → Prop)
    (R : A → Prop) (xs : list A) (s : S) :
  (∀ s x, P s → R x → ∃ s', f s x = Ok s' ∧ P s') →
  Forall R xs → P s → ∃ s', for_each f xs s = Ok s' ∧ P s'.
Proof.
  intros Hf Hxs. revert s.
  induction Hxs as [|x xs Hx _ IH]; intros s Hs; simpl; [eauto|].
  destruct (Hf s x Hs Hx) as (s1 & -> & Hs1). simpl. by apply IH.
Qed.

Section SolverFacts.
Context {A : Type} `{AntClass A}.
Implicit Types (s : Solver) (ants : list (Ant A)) (ph : Store) (g : Rng).

(** *** Colony construction *)

Lemma random_ants_loop_draws s fuel starts ants g nid :
  length starts < fuel → (0 < ant_count s)%Z →
  ∃ drawn g',
    random_ants_loop fuel s starts ants g nid
      = Ok (ants ++ imap (λ i n, new_ant s (nid + i) n) drawn, g',
            nid + length starts)
    ∧ drawn ≡ₚ starts.
Proof.
  intros Hfuel Hcount.
  revert starts ants g nid Hfuel.
  induction fuel as [|fuel IH]; intros starts ants g nid Hfuel; [lia|].
  simpl. apply Z.ltb_lt in Hcount as ->. simpl.
  destruct starts as [|n0 starts'] eqn:Estarts.
  - simpl. exists [], g. by rewrite app_nil_r, Nat.add_0_r.
  - rewrite <- Estarts in *.
    assert (0 < length starts) as Hpos by (subst; simpl; lia).
    apply Nat.ltb_lt in Hpos as Hpos'. rewrite Hpos'.
    pose proof (Nat.mod_upper_bound (tape g (pos g)) (length starts)) as Hr.
    set (r := tape g (pos g) `mod` length starts) in *.
    destruct (lookup_lt_is_Some_2 starts r) as [start Hstart]; [lia|].
    rewrite Hstart.
    destruct (IH (delete r starts) (ants ++ [new_ant s nid start])
                (rng_next g) (S nid)) as (drawn & g' & -> & Hperm).
    { rewrite length_delete by eauto. lia. }
    exists (start :: drawn), g'. split.
    + rewrite length_delete by eauto. simpl.
      rewrite <- app_assoc. simpl. rewrite Nat.add_0_r.
      do 3 f_equal; [|lia].
      do 2 f_equal. apply imap_ext. intros i x _. simpl. f_equal. lia.
    + rewrite Hperm. symmetry. by apply delete_Permutation.
Qed.

Lemma random_ants_draws s g nid :
  (0 < ant_count s)%Z →
  ∃ drawn g',
    random_ants s g nid
      = Ok (imap (λ i n, new_ant s (nid + i) n) drawn, g',
            nid + length (nodes (world s)))
    ∧ drawn ≡ₚ nodes (world s).
Proof.
  intros Hcount. unfold random_ants.
  destruct (random_ants_loop_draws s (S (length (nodes (world s))))
              (nodes (world s)) [] g nid) as (drawn & g' & E & Hperm);
    [lia|done|].
  exists drawn, g'. by rewrite E.
Qed.

Lemma round_robin_ants_none s nid :
  (ant_count s < 1)%Z → round_robin_ants s nid = Ok ([], nid).
Proof.
  intros Hcount. unfold round_robin_ants, py_range.
  replace (Z.to_nat (ant_count s)) with 0 by lia. done.
Qed.

(** *** The global update *)

Lemma better_half_small ants : length ants < 2 → better_half ants = [].
Proof.
  intros Hlen. unfold better_half.
  replace (length ants / 2) with 0; [done|].
  symmetry. apply Nat.div_small. lia.
Qed.

(** *** [sorted] *)

Lemma ant_lt_spec (a b : Ant A) :
  ant_lt a b = true ↔ (distance (body a) < distance (body b))%Q.
Proof. apply Qltb_lt. Qed.

Lemma ant_lt_false (a b : Ant A) : ant_lt a b = false ↔ ant_le b a.
Proof. apply Qltb_ge. Qed.

Lemma insert_sorted_perm (x : Ant A) ants : insert_sorted x ants ≡ₚ x :: ants.
Proof.
  induction ants as [|y l IH]; simpl; [done|].
  destruct (ant_lt y x); [|done].
  rewrite IH. apply Permutation_swap.
Qed.

Lemma sorted_perm ants : sorted ants ≡ₚ ants.
Proof.
  induction ants as [|x l IH]; simpl; [done|].
  by rewrite insert_sorted_perm, IH.
Qed.

Lemma insert_sorted_ascending (x : Ant A) ants :
  StronglySorted ant_le ants → StronglySorted ant_le (insert_sorted x ants).
Proof.
  induction 1 as [|y l Hl IH Hy]; simpl.
  - repeat constructor.
  - destruct (ant_lt y x) eqn:E.
    + constructor; [done|].
      rewrite insert_sorted_perm. constructor; [|done].
      apply ant_lt_spec in E. by apply Qlt_le_weak.
    + apply ant_lt_false in E.
      constructor; [by constructor|].
      constructor; [done|].
      apply List.Forall_forall. intros z Hz.
      eapply List.Forall_forall in Hy; [|exact Hz].
      unfold ant_le in *. by eapply Qle_trans.
Qed.

Lemma sorted_ascending ants : StronglySorted ant_le (sorted ants).
Proof.
  induction ants as [|x l IH]; simpl; [constructor|].
  by apply insert_sorted_ascending.
Qed.

Lemma insert_sorted_at_distance d (x : Ant A) ants :
  at_distance d (insert_sorted x ants) = at_distance d (x :: ants).
Proof.
  induction ants as [|y l IH]; [done|].
  simpl insert_sorted. destruct (ant_lt y x) eqn:E; [|done].
  apply ant_lt_spec in E.
  change (at_distance d (y :: insert_sorted x l))
    with (if Qeq_bool (distance (body y)) d
          then y :: at_distance d (insert_sorted x l)
          else at_distance d (insert_sorted x l)).
  rewrite IH. simpl.
  destruct (Qeq_bool (distance (body y)) d) eqn:Ey,
           (Qeq_bool (distance (body x)) d) eqn:Ex; try done.
  apply Qeq_bool_iff in Ey, Ex. rewrite Ey, Ex in E.
  by apply Qlt_irrefl in E.
Qed.

(** Stability: ants of equal distance keep the order of the input. *)
Lemma sorted_stable d ants : at_distance d (sorted ants) = at_distance d ants.
Proof.
  induction ants as [|x l IH]; [done|].
  simpl sorted. rewrite insert_sorted_at_distance. simpl. by rewrite IH.
Qed.

Lemma get_best_ant_Ok ants :
  ants ≠ [] →
  ∃ best, get_best_ant ants = Ok best ∧ best ∈ ants
          ∧ ∀ a, a ∈ ants → ant_le best a.
Proof.
  intros Hne. unfold get_best_ant.
  pose proof (sorted_perm ants) as Hperm.
  pose proof (sorted_ascending ants) as Hsort.
  destruct (sorted ants) as [|best l].
  - apply Permutation_nil_l in Hperm. congruence.
  - exists best. split; [done|]. split.
    + rewrite <- Hperm. left.
    + intros a Ha. rewrite <- Hperm in Ha.
      apply StronglySorted_inv in Hsort as [_ Hall].
      apply elem_of_cons in Ha as [->|Ha]; [apply Qle_refl|].
      rewrite List.Forall_forall in Hall. by apply Hall, list_elem_of_In.
Qed.


(** *** Single writes on the store *)

Lemma obind_Ok {B C} (c : outcome B) (k : B → outcome C) (r : C) :
  obind c k = Ok r → ∃ b, c = Ok b ∧ k b = Ok r.
Proof. destruct c; simpl; [eauto|done..]. Qed.

Lemma resolves_true (w : World) (e : EdgeRef) (m : Move) :
  resolves w e m = true ↔ edges w !! m = Some e.
Proof. unfold resolves. apply bool_decide_eq_true. Qed.

Lemma insert_at (w : World) ph (m : Move) (e0 e : EdgeRef) (x : Q) :
  edges w !! m = Some e0 →
  <[e0 := x]> ph e = if resolves w e m then x else ph e.
Proof.
  intros Hm. unfold resolves. rewrite Hm. case_bool_decide as E.
  - injection E as ->. apply fn_lookup_insert.
  - apply fn_lookup_insert_ne. congruence.
Qed.

Lemma uses_nil_iff (w : World) (e : EdgeRef) (ms : list Move) :
  uses w e ms = [] ↔ ∀ m, m ∈ ms → edges w !! m ≠ Some e.
Proof.
  unfold uses. induction ms as [|m ms IH]; simpl.
  - split; [|done]. intros _ m Hm. by apply elem_of_nil in Hm.
  - destruct (resolves w e m) eqn:E.
    + split; [done|]. intros Hall. apply resolves_true in E.
      destruct (Hall m); [left|done].
    + rewrite IH. split.
      * intros Hall m' [->|Hm']%elem_of_cons; [|by apply Hall].
        intros Hm. apply resolves_true in Hm. congruence.
      * intros Hall m' Hm'. apply Hall. by right.
Qed.

(** *** [reset_pheromone] *)

Lemma reset_fold s (es : list EdgeRef) ph (e : EdgeRef) :
  fold_left (λ ph e, <[e := t0 s]> ph) es ph e
    = if bool_decide (e ∈ es) then t0 s else ph e.
Proof.
  revert ph. induction es as [|e0 es IH]; intros ph.
  - simpl fold_left. rewrite bool_decide_eq_false_2; [done|].
    apply not_elem_of_nil.
  - simpl fold_left. rewrite IH. destruct (decide (e ∈ es)) as [Hin|Hout].
    + rewrite !bool_decide_eq_true_2; [done|by right|done].
    + rewrite (bool_decide_eq_false_2 _ Hout).
      destruct (decide (e0 = e)) as [->|Hne].
      * rewrite fn_lookup_insert, bool_decide_eq_true_2; [done|left].
      * rewrite fn_lookup_insert_ne by done.
        rewrite bool_decide_eq_false_2; [done|].
        intros [->|?]%elem_of_cons; done.
Qed.

Lemma reset_pheromone_at s ph (e : EdgeRef) :
  e ∈ edge_values (world s) → reset_pheromone s ph e = t0 s.
Proof.
  intros He. unfold reset_pheromone.
  by rewrite reset_fold, bool_decide_eq_true_2.
Qed.

Lemma reset_pheromone_other s ph (e : EdgeRef) :
  e ∉ edge_values (world s) → reset_pheromone s ph e = ph e.
Proof.
  intros He. unfold reset_pheromone.
  by rewrite reset_fold, bool_decide_eq_false_2.
Qed.

Lemma edge_values_elem (w : World) (m : Move) (e : EdgeRef) :
  edges w !! m = Some e → e ∈ edge_values w.
Proof.
  intros Hm. unfold edge_values. apply list_elem_of_fmap.
  exists (m, e). split; [done|]. by apply elem_of_map_to_list.
Qed.

(** *** [update_scent], edge by edge *)

Lemma deposit_at s (p : Q) ph (m : Move) ph' (e : EdgeRef) :
  deposit s p ph m = Ok ph' →
  ph' e = if resolves (world s) e m then relay s (ph e) p else ph e.
Proof.
  unfold deposit. intros (e0 & He0 & [= <-])%obind_Ok.
  apply edge_at_Ok in He0. rewrite (insert_at _ _ _ _ _ _ He0).
  destruct (resolves (world s) e m) eqn:E; [|done].
  apply resolves_true in E. rewrite E in He0. by injection He0 as ->.
Qed.

Lemma deposits_at s (p : Q) (ms : list Move) ph ph' (e : EdgeRef) :
  for_each (deposit s p) ms ph = Ok ph' →
  ph' e = fold_left (relay s) (map (λ _, p) (uses (world s) e ms)) (ph e).
Proof.
  revert ph. induction ms as [|m ms IH]; intros ph; simpl.
  - by intros [= <-].
  - intros (ph1 & Hm & Hms)%obind_Ok.
    rewrite (IH _ Hms), (deposit_at _ _ _ _ _ e Hm).
    by destruct (resolves (world s) e m).
Qed.

Lemma lay_scent_at s ph (a : Ant A) ph' (e : EdgeRef) :
  lay_scent s ph a = Ok ph' →
  ph' e = fold_left (relay s) (laid_on s e [a]) (ph e).
Proof.
  unfold lay_scent. intros (p & Hp & Hms)%obind_Ok.
  apply py_div_Ok_inv in Hp as [_ ->].
  unfold laid_on. simpl. rewrite app_nil_r. by apply deposits_at.
Qed.

Lemma laid_on_cons s (e : EdgeRef) (a : Ant A) sel :
  laid_on s e (a :: sel) = laid_on s e [a] ++ laid_on s e sel.
Proof. unfold laid_on. simpl. by rewrite app_nil_r. Qed.

Lemma lay_scents_at s (sel : list (Ant A)) ph ph' (e : EdgeRef) :
  for_each (lay_scent s) sel ph = Ok ph' →
  ph' e = fold_left (relay s) (laid_on s e sel) (ph e).
Proof.
  revert ph. induction sel as [|a sel IH]; intros ph.
  - by intros [= <-].
  - simpl for_each. intros (ph1 & Ha & Hsel)%obind_Ok.
    rewrite laid_on_cons, fold_left_app.
    by rewrite (IH _ Hsel), (lay_scent_at _ _ _ _ e Ha).
Qed.

Lemma laid_on_nil_iff s (e : EdgeRef) (sel : list (Ant A)) :
  laid_on s e sel = [] ↔
  ∀ a m, a ∈ sel → m ∈ moves (body a) → edges (world s) !! m ≠ Some e.
Proof.
  induction sel as [|a sel IH].
  - split; [|done]. intros _ a m Ha. by apply elem_of_nil in Ha.
  - rewrite laid_on_cons. split.
    + intros [Ha Hsel]%app_eq_nil a' m [->|Ha']%elem_of_cons Hm.
      * unfold laid_on in Ha. simpl in Ha. rewrite app_nil_r in Ha.
        apply map_eq_nil in Ha. by eapply uses_nil_iff in Ha.
      * by eapply IH.
    + intros Hall.
      assert (laid_on s e sel = []) as ->.
      { apply IH. intros a' m Ha'. apply Hall. by right. }
      unfold laid_on. simpl. rewrite !app_nil_r.
      assert (uses (world s) e (moves (body a)) = []) as ->; [|done].
      apply uses_nil_iff. intros m Hm. apply (Hall a); [left|done].
Qed.

Lemma relay_floor s (cur p : Q) : (t0 s <= relay s cur p)%Q.
Proof. apply py_max_floor. Qed.

Lemma relays_floor s (ps : list Q) (cur : Q) :
  ps ≠ [] ∨ (t0 s <= cur)%Q → (t0 s <= fold_left (relay s) ps cur)%Q.
Proof.
  revert cur. induction ps as [|p ps IH]; intros cur; simpl.
  - by intros [?|?].
  - intros _. apply IH. right. apply relay_floor.
Qed.

Lemma lay_scents_Ok s (sel : list (Ant A)) ph :
  Forall (λ a, ¬ (distance (body a) == 0)%Q
               ∧ Forall (λ m, is_Some (edges (world s) !! m))
                   (moves (body a))) sel →
  ∃ ph', for_each (lay_scent s) sel ph = Ok ph'.
Proof.
  intros Hsel.
  edestruct (for_each_invariant (lay_scent s) (λ _, True))
    as (ph' & Hph' & _); [|exact Hsel|done|by exists ph'].
  clear. intros ph a _ [Hd Hms]. unfold lay_scent.
  rewrite (py_div_ok _ _ Hd). simpl.
  edestruct (for_each_invariant (deposit s (q s / distance (body a))%Q)
               (λ _, True)) as (ph' & Hph' & _);
    [|exact Hms|done|by exists ph'].
  clear. intros ph m _ [e He]. unfold deposit, edge_at. rewrite He. simpl.
  eauto.
Qed.


(** *** [trace_elite], edge by edge *)

Lemma trace_move_at s (ant : Ant A) ph (m : Move) ph' (e : EdgeRef) :
  trace_move s ant ph m = Ok ph' →
  ph' e = if resolves (world s) e m
          then (ph e + elite_deposit s ant)%Q else ph e.
Proof.
  unfold trace_move. intros (e0 & He0 & (d & Hd & [= <-])%obind_Ok)%obind_Ok.
  apply edge_at_Ok in He0. apply py_div_Ok_inv in Hd as [_ ->].
  rewrite (insert_at _ _ _ _ _ _ He0).
  destruct (resolves (world s) e m) eqn:E; [|done].
  apply resolves_true in E. rewrite E in He0. by injection He0 as ->.
Qed.

Lemma Qnat_S (n : nat) : (Qnat (S n) == Qnat n + 1)%Q.
Proof.
  unfold Qnat. rewrite Nat2Z.inj_succ. unfold Z.succ.
  by rewrite inject_Z_plus.
Qed.

Lemma Qnat_pos (n : nat) : 0 < n → (0 < Qnat n)%Q.
Proof.
  intros Hn. unfold Qnat. change 0%Q with (inject_Z 0).
  rewrite <- Zlt_Qlt. lia.
Qed.

Lemma trace_moves_at s (ant : Ant A) (ms : list Move) ph ph' (e : EdgeRef) :
  for_each (trace_move s ant) ms ph = Ok ph' →
  (ph' e == ph e + Qnat (length (uses (world s) e ms)) * elite_deposit s ant)%Q.
Proof.
  revert ph. induction ms as [|m ms IH]; intros ph.
  - intros [= <-]. simpl. unfold Qnat. simpl. ring.
  - simpl for_each. intros (ph1 & Hm & Hms)%obind_Ok.
    rewrite (IH _ Hms), (trace_move_at _ _ _ _ _ e Hm).
    unfold uses. simpl. destruct (resolves (world s) e m); [|done].
    simpl length. rewrite Qnat_S. ring.
Qed.

Lemma trace_elite_at s (ant : Ant A) ph ph' (e : EdgeRef) :
  truthy (elite s) = true → trace_elite s ant ph = Ok ph' →
  (ph' e == ph e + Qnat (length (uses (world s) e (moves (body ant))))
                   * elite_deposit s ant)%Q.
Proof.
  intros Helite. unfold trace_elite. rewrite Helite. apply trace_moves_at.
Qed.

Lemma trace_elite_falsy s (ant : Ant A) ph :
  truthy (elite s) = false → trace_elite s ant ph = Ok ph.
Proof. intros Helite. unfold trace_elite. by rewrite Helite. Qed.

Lemma trace_elite_Ok s (ant : Ant A) ph :
  Forall (λ m, is_Some (edges (world s) !! m)) (moves (body ant)) →
  ¬ (distance (body ant) == 0)%Q →
  ∃ ph', trace_elite s ant ph = Ok ph'.
Proof.
  intros Hms Hd. unfold trace_elite.
  destruct (truthy (elite s)); [|eauto].
  edestruct (for_each_invariant (trace_move s ant) (λ _, True))
    as (ph' & Hph' & _); [|exact Hms|done|by exists ph'].
  clear -Hd. intros ph m _ [e He]. unfold trace_move, edge_at.
  rewrite He. simpl. rewrite (py_div_ok _ _ Hd). simpl. eauto.
Qed.

Lemma elite_deposit_pos s (ant : Ant A) :
  (0 < elite s)%Q → (0 < q s)%Q → (0 < distance (body ant))%Q →
  (0 < elite_deposit s ant)%Q.
Proof.
  intros He Hq Hd. unfold elite_deposit.
  apply Qlt_shift_div_l; [done|]. rewrite Qmult_0_l.
  by apply Qmult_lt_0_compat.
Qed.

Lemma elite_deposit_nonneg s (ant : Ant A) :
  (0 <= elite s)%Q → (0 <= q s)%Q → (0 <= distance (body ant))%Q →
  (0 <= elite_deposit s ant)%Q.
Proof.
  intros He Hq Hd. unfold elite_deposit, Qdiv.
  apply Qmult_le_0_compat; [by apply Qmult_le_0_compat|].
  by apply Qinv_le_0_compat.
Qed.

(** *** One turn of one ant *)

Lemma turn_moves s (ant : Ant A) ph g (d : nat) (m : Move) (a' : A) g'
    (e : EdgeRef) :
  can_move (body ant) = true →
  move (world s) ph g (body ant) = (m, a', g') →
  edges (world s) !! m = Some e →
  turn s ant ph g d
    = Ok ({| oid := oid ant; body := a' |}, <[e := (ph e * rho s)%Q]> ph, g', d).
Proof.
  intros Hcan Hmove He. unfold turn, edge_at. by rewrite Hcan, Hmove, He.
Qed.

Lemma turn_stays s (ant : Ant A) ph g (d : nat) :
  can_move (body ant) = false → turn s ant ph g d = Ok (ant, ph, g, S d).
Proof. intros Hcan. unfold turn. by rewrite Hcan. Qed.


(** *** The driving loop of [find_solutions] *)

Lemma count_done_le ants : count_done ants ≤ length ants.
Proof.
  unfold count_done. induction ants as [|a l IH]; simpl; [done|].
  destruct (can_move (body a)); simpl; lia.
Qed.

Lemma count_done_all ants : count_done ants = length ants ↔ all_done ants.
Proof.
  unfold count_done, all_done. induction ants as [|a l IH]; simpl.
  - split; [constructor|done].
  - pose proof (count_done_le l) as Hle. unfold count_done in Hle.
    destruct (can_move (body a)) eqn:E; simpl.
    + split; [lia|]. intros Hall. apply Forall_cons_1 in Hall as [? _].
      congruence.
    + split.
      * intros Hlen. constructor; [done|]. apply IH. lia.
      * intros Hall. apply Forall_cons_1 in Hall as [_ Hall].
        apply IH in Hall. lia.
Qed.

Lemma all_done_dec ants : {all_done ants} + {¬ all_done ants}.
Proof.
  destruct (decide (count_done ants = length ants)) as [E|E].
  - left. by apply count_done_all.
  - right. by rewrite <- count_done_all.
Qed.

Section Run.
Variables (s : Solver) (inv : A → Prop) (budget : A → nat).
Hypothesis contract : AntContract s inv budget.

Lemma turn_contract (ant : Ant A) ph g (d : nat) :
  inv (body ant) →
  ∃ ant' ph' g' d',
    turn s ant ph g d = Ok (ant', ph', g', d')
    ∧ oid ant' = oid ant ∧ inv (body ant')
    ∧ d' + budget (body ant') + 1 ≤ d + budget (body ant) + 
        (if can_move (body ant) then 0 else 2)
    ∧ d' = d + (if can_move (body ant) then 0 else 1)
    ∧ (can_move (body ant) = false → ant' = ant ∧ ph' = ph ∧ g' = g).
Proof.
  intros Hinv. destruct (can_move (body ant)) eqn:Hcan.
  - pose proof (move_inv _ _ _ contract ph g _ Hinv Hcan) as Hinv'.
    pose proof (move_key _ _ _ contract ph g _ Hinv Hcan) as [e He].
    pose proof (move_budget _ _ _ contract ph g _ Hinv Hcan) as Hlt.
    destruct (move (world s) ph g (body ant)) as [[m a'] g'] eqn:Hmove.
    simpl in *. eexists _, _, _, _.
    split; [by eapply turn_moves|]. simpl.
    repeat split; [done|lia|lia|done..].
  - rewrite (turn_stays _ _ _ _ _ Hcan). eexists _, _, _, _.
    split; [done|]. repeat split; [done|lia|lia].
Qed.

Lemma sweep_contract ants ph g (d : nat) :
  colony_inv inv ants →
  ∃ ants' ph' g' d',
    sweep s ants ph g d = Ok (ants', ph', g', d')
    ∧ oid <$> ants' = oid <$> ants ∧ colony_inv inv ants'
    ∧ d' = d + count_done ants
    ∧ colony_budget budget ants' + length ants
        ≤ colony_budget budget ants + count_done ants
    ∧ (all_done ants → ants' = ants ∧ ph' = ph ∧ g' = g).
Proof.
  intros Hinv. revert ph g d.
  induction Hinv as [|ant rest Hant Hrest IH]; intros ph g d.
  - eexists _, _, _, _. split; [done|]. unfold count_done. simpl.
    repeat split; [constructor|lia|lia].
  - destruct (turn_contract ant ph g d Hant)
      as (ant' & ph1 & g1 & d1 & Hturn & Hoid & Hinv' & Hb & Hd & Hstay).
    destruct (IH ph1 g1 d1)
      as (rest' & ph2 & g2 & d2 & Hsweep & Hoids & Hinvs & Hd2 & Hbs & Hstays).
    simpl sweep. rewrite Hturn. simpl. rewrite Hsweep. simpl.
    eexists _, _, _, _. split; [done|].
    split; [by rewrite !fmap_cons, Hoid, Hoids|].
    split; [by constructor|].
    unfold count_done, colony_budget in *. simpl.
    destruct (can_move (body ant)) eqn:Hcan; simpl in *.
    + split; [lia|]. split; [lia|].
      intros [? _]%Forall_cons_1. congruence.
    + destruct Hstay as (-> & -> & ->); [done|].
      split; [lia|]. split; [lia|].
      intros [_ Hall]%Forall_cons_1.
      by destruct (Hstays Hall) as (-> & -> & ->).
Qed.

Lemma loop_exits (fuel : nat) ants ph g (d : nat) :
  colony_inv inv ants → d < length ants →
  colony_budget budget ants + 2 ≤ fuel →
  ∃ k ants' ph' g',
    find_solutions_loop fuel s ants ph g d = Ok (ants', ph', g')
    ∧ sweeps s (S k) ants ph g = Ok (ants', ph', g')
    ∧ all_done ants' ∧ colony_inv inv ants'
    ∧ oid <$> ants' = oid <$> ants
    ∧ ∀ j antsj phj gj, j ≤ k →
        sweeps s j ants ph g = Ok (antsj, phj, gj) →
        (all_done antsj ↔ j = k).
Proof.
  revert ants ph g d.
  induction fuel as [|fuel IH]; intros ants ph g d Hinv Hd Hfuel; [lia|].
  simpl find_solutions_loop. apply Nat.ltb_lt in Hd as Hd'. rewrite Hd'.
  destruct (sweep_contract ants ph g 0 Hinv)
    as (ants1 & ph1 & g1 & d1 & Hsweep & Hoids & Hinv1 & Hd1 & Hb & Hstay).
  rewrite Hsweep. simpl obind.
  assert (length ants1 = length ants) as Hlen.
  { by rewrite <- (length_fmap oid ants1), Hoids, length_fmap. }
  destruct (all_done_dec ants) as [Hall|Hsome].
  - destruct (Hstay Hall) as (-> & -> & ->).
    apply count_done_all in Hall as Hcount.
    destruct fuel as [|fuel]; [lia|]. simpl find_solutions_loop.
    rewrite (proj2 (Nat.ltb_ge _ _)) by lia.
    exists 0, ants, ph, g. simpl sweeps. rewrite Hsweep. simpl.
    do 5 (split; [done|]).
    intros j antsj phj gj Hj Hrun. assert (j = 0) as -> by lia.
    simpl in Hrun. by injection Hrun as <- <- <-.
  - assert (count_done ants < length ants) as Hlt.
    { pose proof (count_done_le ants). rewrite <- count_done_all in Hsome.
      lia. }
    destruct (IH ants1 ph1 g1 d1 Hinv1)
      as (k & ants' & ph' & g' & Hloop & Hsweeps & Hdone & Hinv' & Hoids'
          & Hexit); [lia|lia|].
    exists (S k), ants', ph', g'.
    split; [done|]. split.
    { change (sweeps s (S (S k)) ants ph g)
        with (do '(a1, p1, r1, _) <- sweep s ants ph g 0;
              sweeps s (S k) a1 p1 r1).
      by rewrite Hsweep. }
    do 2 (split; [done|]). split; [congruence|].
    intros j antsj phj gj Hj Hrun. destruct j as [|j]; simpl in Hrun.
    + injection Hrun as <- <- <-. split; [done|lia].
    + rewrite Hsweep in Hrun. simpl in Hrun.
      rewrite (Hexit j antsj phj gj) by (done || lia). lia.
Qed.

Lemma find_solutions_contract (fuel : nat) ants ph g :
  colony_inv inv ants → colony_budget budget ants + 2 ≤ fuel →
  ∃ k ants' ph' g',
    find_solutions fuel s ants ph g = Ok (ants', ph', g')
    ∧ sweeps s k ants ph g = Ok (ants', ph', g')
    ∧ all_done ants' ∧ colony_inv inv ants'
    ∧ oid <$> ants' = oid <$> ants
    ∧ (k = 0 ↔ ants = [])
    ∧ ∀ j antsj phj gj, j < k →
        sweeps s j ants ph g = Ok (antsj, phj, gj) →
        (all_done antsj ↔ S j = k).
Proof.
  intros Hinv Hfuel. unfold find_solutions.
  destruct ants as [|a ants].
  - destruct fuel as [|fuel]; [lia|]. exists 0, [], ph, g. simpl.
    do 2 (split; [done|]). do 3 (split; [by constructor|]).
    split; [done|]. intros j antsj phj gj Hj. lia.
  - destruct (loop_exits fuel (a :: ants) ph g 0 Hinv)
      as (k & ants' & ph' & g' & Hloop & Hsweeps & Hdone & Hinv' & Hoids
          & Hexit); [simpl; lia|done|].
    exists (S k), ants', ph', g'.
    do 5 (split; [done|]). split; [done|].
    intros j antsj phj gj Hj Hrun.
    rewrite (Hexit j antsj phj gj) by (done || lia). lia.
Qed.

End Run.


(** *** One turn of the loop of [solve] and [solutions] *)

Lemma iteration_inv (fuel : nat) s (gb : option (Ant A)) ph g (nid : nat)
    (it : Iteration) :
  iteration fuel s gb ph g nid = Ok it →
  ∃ ants0 g1 nid1 ph1,
    build_colony s g nid = Ok (ants0, g1, nid1)
    ∧ find_solutions fuel s ants0 ph g1 = Ok (it_colony it, ph1, it_rng it)
    ∧ update_scent s (it_colony it) ph1 = Ok (it_scent it)
    ∧ get_best_ant (it_colony it) = Ok (it_local_best it)
    ∧ it_improved it = improves (it_local_best it) gb
    ∧ (if it_improved it
       then it_global_best it = clone (it_local_best it) nid1
            ∧ it_next_id it = S nid1
       else gb = Some (it_global_best it) ∧ it_next_id it = nid1)
    ∧ (if truthy (elite s)
       then trace_elite s (it_global_best it) (it_scent it)
       else Ok (it_scent it)) = Ok (it_pheromone it).
Proof.
  unfold iteration.
  intros ([[ants0 g1] nid1] & Hbuild & Hrest)%obind_Ok.
  apply obind_Ok in Hrest as ([[ants ph1] g2] & Hfind & Hrest).
  apply obind_Ok in Hrest as (ph2 & Hscent & Hrest).
  apply obind_Ok in Hrest as (lb & Hbest & Hrest).
  exists ants0, g1, nid1, ph1.
  destruct gb as [gb0|]; simpl improves in *.
  - destruct (ant_lt lb gb0) eqn:Hlt;
      apply obind_Ok in Hrest as (ph3 & Helite & [= <-]); simpl;
      rewrite ?Hlt; done.
  - apply obind_Ok in Hrest as (ph3 & Helite & [= <-]); simpl; done.
Qed.

(** The body of the loop is its part before the [yield] of [solutions],
    then the elitist trace. *)
Lemma iteration_split (fuel : nat) s (gb : option (Ant A)) ph g (nid : nat) :
  iteration fuel s gb ph g nid
  = (do h <- iteration_head fuel s gb ph g nid; iteration_tail s h).
Proof.
  unfold iteration, iteration_head, iteration_tail.
  destruct (build_colony s g nid) as [[[ants0 g1] nid1]|e|]; [|done..].
  simpl obind.
  destruct (find_solutions fuel s ants0 ph g1) as [[[ants ph1] g2]|e|];
    [|done..].
  simpl obind. destruct (update_scent s ants ph1) as [ph2|e|]; [|done..].
  simpl obind. destruct (get_best_ant ants) as [lb|e|]; [|done..].
  simpl obind.
  destruct gb as [gb0|]; [destruct (improves lb (Some gb0))|]; done.
Qed.

Lemma iteration_head_inv (fuel : nat) s (gb : option (Ant A)) ph g
    (nid : nat) (h : Iteration) :
  iteration_head fuel s gb ph g nid = Ok h →
  ∃ ants0 g1 nid1 ph1,
    build_colony s g nid = Ok (ants0, g1, nid1)
    ∧ find_solutions fuel s ants0 ph g1 = Ok (it_colony h, ph1, it_rng h)
    ∧ update_scent s (it_colony h) ph1 = Ok (it_scent h)
    ∧ get_best_ant (it_colony h) = Ok (it_local_best h)
    ∧ it_improved h = improves (it_local_best h) gb
    ∧ (if it_improved h
       then it_global_best h = clone (it_local_best h) nid1
            ∧ it_next_id h = S nid1
       else gb = Some (it_global_best h) ∧ it_next_id h = nid1).
Proof.
  unfold iteration_head.
  intros ([[ants0 g1] nid1] & Hbuild & Hrest)%obind_Ok.
  apply obind_Ok in Hrest as ([[ants ph1] g2] & Hfind & Hrest).
  apply obind_Ok in Hrest as (ph2 & Hscent & Hrest).
  apply obind_Ok in Hrest as (lb & Hbest & Hrest).
  exists ants0, g1, nid1, ph1.
  destruct gb as [gb0|]; simpl improves in *.
  - destruct (ant_lt lb gb0) eqn:Hlt; injection Hrest as <-; simpl;
      rewrite ?Hlt; done.
  - injection Hrest as <-; simpl; done.
Qed.

Lemma iteration_tail_keeps s (h it : Iteration) :
  iteration_tail s h = Ok it →
  it_improved it = it_improved h ∧ it_global_best it = it_global_best h.
Proof.
  unfold iteration_tail. by intros (ph3 & _ & [= <-])%obind_Ok.
Qed.

(** A turn that returns: [solutions] yields its global best if it
    improved, and goes on. *)
Lemma solutions_loop_step (fuel n : nat) s (gb : option (Ant A)) ph g
    (nid : nat) (it : Iteration) :
  iteration fuel s gb ph g nid = Ok it →
  solutions_loop fuel s (S n) gb ph g nid
  = (let '(ys, r) :=
       solutions_loop fuel s n (Some (it_global_best it))
         (it_pheromone it) (it_rng it) (it_next_id it) in
     ((if it_improved it then [it_global_best it] else []) ++ ys, r)).
Proof.
  rewrite iteration_split. intros (h & Hh & Hit)%obind_Ok.
  simpl solutions_loop. rewrite Hh, Hit.
  by destruct (iteration_tail_keeps _ _ _ Hit) as [-> ->].
Qed.

(** A turn that does not return: [solutions] ends the same way, after
    what it had yielded. *)
Lemma solutions_loop_stops (fuel n : nat) s (gb : option (Ant A)) ph g
    (nid : nat) :
  match iteration fuel s gb ph g nid with
  | Ok _ => True
  | Raise e =>
      ∃ ys, solutions_loop fuel s (S n) gb ph g nid = (ys, Raise e)
  | OutOfFuel =>
      ∃ ys, solutions_loop fuel s (S n) gb ph g nid = (ys, OutOfFuel)
  end.
Proof.
  rewrite iteration_split. simpl solutions_loop.
  destruct (iteration_head fuel s gb ph g nid) as [h|e|]; simpl; eauto.
  destruct (iteration_tail s h) as [it|e|]; simpl; eauto.
Qed.

Section Iterate.
Variables (s : Solver) (inv : A → Prop) (budget : A → nat).
Hypothesis contract : AntContract s inv budget.
Hypothesis far : finished_far inv.
Hypothesis some_ants : (1 <= ant_count s)%Z.
Hypothesis some_nodes : nodes (world s) ≠ [].

Lemma drawn_colony (drawn : list Node) (nid : nat) :
  drawn ≡ₚ nodes (world s) →
  let ants := imap (λ i n, new_ant (A:=A) s (nid + i) n) drawn in
  colony_inv inv ants
  ∧ (∀ a, a ∈ ants → nid ≤ oid a < nid + length (nodes (world s)))
  ∧ colony_budget budget ants + 2 = enough_fuel s budget
  ∧ ants ≠ [].
Proof.
  intros Hperm ants. split; [|split; [|split]].
  - apply Forall_lookup. intros i a Ha. subst ants.
    rewrite list_lookup_imap in Ha.
    destruct (drawn !! i) as [n|] eqn:Hn; [|done]. injection Ha as <-.
    simpl. apply (init_inv _ _ _ contract). rewrite <- Hperm.
    by eapply list_elem_of_lookup_2.
  - intros a Ha. apply list_elem_of_lookup in Ha as [i Ha]. subst ants.
    rewrite list_lookup_imap in Ha.
    destruct (drawn !! i) as [n|] eqn:Hn; [|done]. injection Ha as <-.
    simpl. apply lookup_lt_Some in Hn. rewrite <- Hperm. lia.
  - unfold enough_fuel. rewrite <- Hperm. subst ants. clear.
    rewrite Nat.add_comm. f_equal. unfold colony_budget.
    revert nid. induction drawn as [|n l IH]; intros nid; [done|].
    rewrite imap_cons. simpl. f_equal. rewrite <- (IH (S nid)).
    f_equal. apply imap_ext. intros i x _. simpl. f_equal. lia.
  - subst ants. destruct drawn as [|n l]; [|done].
    apply Permutation_nil_l in Hperm. congruence.
Qed.

Lemma better_half_subset ants (a : Ant A) : a ∈ better_half ants → a ∈ ants.
Proof.
  unfold better_half. intros Ha%subseteq_take.
  by rewrite sorted_perm in Ha.
Qed.

Lemma good_scent (a : Ant A) :
  good inv a →
  ¬ (distance (body a) == 0)%Q
  ∧ Forall (λ m, is_Some (edges (world s) !! m)) (moves (body a)).
Proof.
  intros [Hinv Hdone]. split; [|by apply (moves_keys _ _ _ contract)].
  pose proof (far _ Hinv Hdone) as Hpos. intros E. rewrite E in Hpos.
  by apply Qlt_irrefl in Hpos.
Qed.

Lemma iteration_ok (fuel : nat) (gb : option (Ant A)) ph g (nid : nat) :
  enough_fuel s budget ≤ fuel →
  (∀ gb0, gb = Some gb0 → good inv gb0) →
  ∃ it, iteration fuel s gb ph g nid = Ok it
        ∧ step_ok s inv gb nid it ∧ good inv (it_global_best it).
Proof.
  intros Hfuel Hgb. unfold iteration, build_colony.
  rewrite (proj2 (Z.ltb_ge _ _)) by done.
  destruct (random_ants_draws s g nid) as (drawn & g1 & -> & Hperm); [lia|].
  destruct (drawn_colony drawn nid Hperm) as (Hinv0 & Hids0 & Hbud & Hne0).
  simpl obind.
  destruct (find_solutions_contract s inv budget contract fuel _ ph g1 Hinv0)
    as (k & ants & ph1 & g2 & -> & _ & Hdone & Hinv & Hoids & _); [lia|].
  simpl obind.
  assert (Forall (good inv) ants) as Hgood.
  { unfold colony_inv, all_done in *. rewrite Forall_forall in Hinv, Hdone.
    apply Forall_forall. intros a Ha. split; [by apply Hinv|by apply Hdone]. }
  assert (ants ≠ []) as Hne.
  { intros ->. symmetry in Hoids. by apply fmap_nil_inv in Hoids. }
  assert (∀ a, a ∈ ants → nid ≤ oid a < nid + length (nodes (world s)))
    as Hids.
  { intros a Ha. apply (list_elem_of_fmap_2 oid) in Ha.
    rewrite Hoids in Ha. apply list_elem_of_fmap in Ha as (a0 & -> & Ha0).
    by apply Hids0. }
  destruct (lay_scents_Ok s (better_half ants) ph1) as [ph2 Hscent].
  { apply Forall_forall. intros a Ha%better_half_subset.
    apply good_scent. rewrite Forall_forall in Hgood. by apply Hgood. }
  unfold update_scent. rewrite Hscent. simpl obind.
  destruct (get_best_ant_Ok ants Hne) as (lb & -> & Hlb & Hmin).
  simpl obind.
  assert (good inv lb) as Hgoodlb.
  { rewrite Forall_forall in Hgood. by apply Hgood. }
  set (n := length (nodes (world s))) in *.
  assert (∃ gb' nid',
            match gb with
            | Some gb0 =>
                if improves lb gb
                then (clone lb (nid + n), S (nid + n)) else (gb0, nid + n)
            | None => (clone lb (nid + n), S (nid + n))
            end = (gb', nid')
            ∧ good inv gb'
            ∧ (if improves lb gb
               then gb' = clone lb (nid + n) ∧ nid' = S (nid + n)
               else gb = Some gb' ∧ nid' = nid + n))
    as (gb' & nid' & -> & Hgood' & Hcase).
  { destruct gb as [gb0|]; simpl; [destruct (ant_lt lb gb0)|];
      eexists _, _; (split; [done|]); split; try done.
    by apply Hgb. }
  destruct (good_scent gb' Hgood') as [Hd' Hkeys'].
  destruct (trace_elite_Ok s gb' ph2 Hkeys' Hd') as [ph3 Helite].
  assert (∃ ph3', (if truthy (elite s) then trace_elite s gb' ph2
                   else Ok ph2) = Ok ph3') as [ph3' ->].
  { destruct (truthy (elite s)); eauto. }
  simpl obind. eexists. split; [done|]. split; [|done].
  unfold step_ok. simpl. repeat split; try done; by apply Hids.
Qed.


Lemma run_ok (fuel n : nat) (gb : option (Ant A)) ph g (nid : nat) :
  enough_fuel s budget ≤ fuel →
  (∀ gb0, gb = Some gb0 → good inv gb0) →
  ∃ log, iterations fuel s n gb ph g nid = Ok log
         ∧ length log = n
         ∧ solve_loop fuel s n gb ph g nid = Ok (final_best gb log)
         ∧ solutions_loop fuel s n gb ph g nid = (yields log, Ok tt)
         ∧ chain s inv gb nid log.
Proof.
  intros Hfuel. revert gb ph g nid.
  induction n as [|n IH]; intros gb ph g nid Hgb.
  - exists []. by repeat split.
  - destruct (iteration_ok fuel gb ph g nid Hfuel Hgb)
      as (it & Hit & Hstep & Hgood).
    destruct (IH (Some (it_global_best it)) (it_pheromone it) (it_rng it)
                (it_next_id it))
      as (log & Hlog & Hlen & Hsolve & Hsols & Hchain).
    { by intros gb0 [= <-]. }
    exists (it :: log). rewrite (solutions_loop_step _ _ _ _ _ _ _ _ Hit).
    simpl. rewrite Hit. simpl. rewrite Hlog, Hsols.
    simpl. split; [done|]. split; [by f_equal|]. split; [done|].
    split; [|done]. unfold yields. simpl. by destruct (it_improved it).
Qed.

End Iterate.


(** *** The turns of a run *)

Lemma final_best_cons (gb : option (Ant A)) (it : Iteration) log :
  final_best gb (it :: log) = final_best (Some (it_global_best it)) log.
Proof. done. Qed.

Lemma final_best_Some (gb0 : Ant A) log :
  ∃ best, final_best (Some gb0) log = Some best.
Proof.
  revert gb0. induction log as [|it log IH]; intros gb0; [by exists gb0|].
  rewrite final_best_cons. apply IH.
Qed.

Lemma final_best_snoc (gb : option (Ant A)) log (it : Iteration) :
  final_best gb (log ++ [it]) = Some (it_global_best it).
Proof. unfold final_best. by rewrite fold_left_app. Qed.

Lemma ant_le_trans (a b c : Ant A) : ant_le a b → ant_le b c → ant_le a c.
Proof. unfold ant_le. apply Qle_trans. Qed.

(** The global best that a turn leaves is no longer than its local best,
    and no longer than the global best before. *)
Lemma step_ok_le s inv (gb : option (Ant A)) (nid : nat) (it : Iteration) :
  step_ok s inv gb nid it →
  ant_le (it_global_best it) (it_local_best it)
  ∧ ∀ gb0, gb = Some gb0 → ant_le (it_global_best it) gb0.
Proof.
  intros (_ & _ & _ & _ & _ & Himp & Hcase).
  destruct (it_improved it).
  - destruct Hcase as [-> _]. split; [apply Qle_refl|].
    intros gb0 ->. simpl in Himp. symmetry in Himp.
    apply ant_lt_spec in Himp. by apply Qlt_le_weak.
  - destruct Hcase as [-> _]. simpl in Himp. symmetry in Himp.
    apply ant_lt_false in Himp. split; [done|].
    intros gb0 [= <-]. apply Qle_refl.
Qed.

Lemma chain_mono s inv (gb0 best : Ant A) (nid : nat) log :
  chain s inv (Some gb0) nid log →
  final_best (Some gb0) log = Some best → ant_le best gb0.
Proof.
  revert gb0 nid. induction log as [|it log IH]; intros gb0 nid.
  - intros _ [= <-]. apply Qle_refl.
  - intros [Hstep Hchain]. rewrite final_best_cons. intros Hbest.
    destruct (step_ok_le _ _ _ _ _ Hstep) as [_ Hle].
    eapply ant_le_trans; [by eapply IH|]. by apply Hle.
Qed.

Lemma chain_min s inv (gb : option (Ant A)) (best : Ant A) (nid : nat) log :
  chain s inv gb nid log → final_best gb log = Some best →
  ∀ it a, it ∈ log → a ∈ it_colony it → ant_le best a.
Proof.
  revert gb nid. induction log as [|it log IH]; intros gb nid.
  - intros _ _ it a Hit. by apply elem_of_nil in Hit.
  - intros [Hstep Hchain]. rewrite final_best_cons. intros Hbest it' a.
    intros [->|Hit']%elem_of_cons Ha; [|by eapply IH].
    destruct (step_ok_le _ _ _ _ _ Hstep) as [Hle _].
    eapply ant_le_trans; [by eapply chain_mono|].
    eapply ant_le_trans; [exact Hle|].
    destruct Hstep as (_ & _ & _ & _ & Hmin & _). by apply Hmin.
Qed.

Lemma step_ok_next s inv (gb : option (Ant A)) (nid : nat) (it : Iteration) :
  step_ok s inv gb nid it →
  (∀ gb0, gb = Some gb0 → oid gb0 < nid) →
  oid (it_global_best it) < it_next_id it
  ∧ nid + length (nodes (world s)) ≤ it_next_id it
  ∧ (gb = Some (it_global_best it)
     ∨ oid (it_global_best it) = nid + length (nodes (world s))).
Proof.
  intros (_ & _ & _ & _ & _ & _ & Hcase) Hgb.
  destruct (it_improved it).
  - destruct Hcase as [-> ->]. simpl. split; [lia|]. split; [lia|by right].
  - destruct Hcase as [E ->]. specialize (Hgb _ E).
    split; [lia|]. split; [lia|by left].
Qed.

Lemma chain_fresh s inv (gb : option (Ant A)) (best : Ant A) (nid : nat) log :
  chain s inv gb nid log →
  (∀ gb0, gb = Some gb0 → oid gb0 < nid) →
  final_best gb log = Some best →
  (gb = Some best ∨ nid ≤ oid best)
  ∧ ∀ it a, it ∈ log → a ∈ it_colony it → oid best ≠ oid a.
Proof.
  revert gb nid. induction log as [|it log IH]; intros gb nid.
  - intros _ _ Hbest. split; [by left|].
    intros it a Hit. by apply elem_of_nil in Hit.
  - intros [Hstep Hchain] Hgb. rewrite final_best_cons. intros Hbest.
    destruct (step_ok_next _ _ _ _ _ Hstep Hgb) as (Hlt & Hnext & Hwhich).
    destruct (IH _ _ Hchain) with (2 := Hbest) as [Hfrom Hrest].
    { by intros gb0 [= <-]. }
    destruct Hstep as (_ & _ & Hids & _).
    assert (gb = Some best ∨ nid + length (nodes (world s)) ≤ oid best)
      as Hbest'.
    { destruct Hfrom as [[= <-]|Hfrom]; [|right; lia].
      destruct Hwhich as [?|?]; [by left|right; lia]. }
    split; [destruct Hbest' as [?|?]; [by left|right; lia]|].
    intros it' a [->|Hit']%elem_of_cons Ha; [|by eapply Hrest].
    specialize (Hids a Ha). destruct Hbest' as [E|?]; [|lia].
    specialize (Hgb _ E). lia.
Qed.

(** The best of a run is a copy of an ant of one of its colonies. *)
Lemma chain_copy s inv (gb : option (Ant A)) (best : Ant A) (nid : nat) log :
  chain s inv gb nid log → final_best gb log = Some best →
  gb = Some best
  ∨ ∃ it a, it ∈ log ∧ a ∈ it_colony it ∧ body best = body a.
Proof.
  revert gb nid. induction log as [|it log IH]; intros gb nid.
  - intros _ Hbest. by left.
  - intros [Hstep Hchain]. rewrite final_best_cons. intros Hbest.
    destruct (IH _ _ Hchain Hbest) as [[= <-]|(it' & a & Hit' & Ha & E)].
    + destruct Hstep as (_ & _ & _ & Hlb & _ & _ & Hcase).
      destruct (it_improved it).
      * destruct Hcase as [E _]. right.
        exists it, (it_local_best it). rewrite E.
        split; [left|]. by split.
      * destruct Hcase as [E _]. by left.
    + right. exists it', a. split; [by right|]. by split.
Qed.

Lemma chain_lookup s inv (gb : option (Ant A)) (nid : nat) log (i : nat)
    (it : Iteration) :
  chain s inv gb nid log → log !! i = Some it →
  ∃ nid', step_ok s inv (final_best gb (take i log)) nid' it.
Proof.
  revert gb nid i. induction log as [|it0 log IH]; intros gb nid i; [done|].
  intros [Hstep Hchain]. destruct i as [|i]; simpl.
  - intros [= <-]. by exists nid.
  - intros Hit. by eapply IH.
Qed.

(** The ants yielded are each strictly shorter than the one before. *)
Lemma chain_yields s inv (gb : option (Ant A)) (nid : nat) log :
  chain s inv gb nid log →
  StronglySorted shorter_after (yields log)
  ∧ Forall (λ y, ∀ gb0, gb = Some gb0 → shorter_after gb0 y) (yields log).
Proof.
  revert gb nid. induction log as [|it log IH]; intros gb nid.
  - intros _. split; constructor.
  - intros [Hstep Hchain].
    destruct (IH _ _ Hchain) as [Hsorted Hbelow].
    assert (Forall (shorter_after (it_global_best it)) (yields log))
      as Hbelow'.
    { eapply Forall_impl; [exact Hbelow|]. intros y Hy. by apply Hy. }
    pose proof (step_ok_le _ _ _ _ _ Hstep) as [_ Hle].
    destruct Hstep as (_ & _ & _ & _ & _ & Himp & Hcase).
    unfold yields in *. simpl. destruct (it_improved it); simpl.
    + split; [by constructor|]. constructor.
      * intros gb0 ->. destruct Hcase as [-> _]. simpl in Himp.
        symmetry in Himp. by apply ant_lt_spec in Himp.
      * eapply Forall_impl; [exact Hbelow'|]. intros y Hy gb0 E.
        unfold shorter_after in *. eapply Qlt_le_trans; [exact Hy|].
        by apply Hle.
    + split; [done|]. destruct Hcase as [-> _].
      eapply Forall_impl; [exact Hbelow'|]. by intros y Hy gb0 [= <-].
Qed.

Lemma yields_length (log : list (@Iteration A)) :
  length (yields log) ≤ length log.
Proof.
  unfold yields. rewrite length_fmap.
  induction log as [|it log IH]; simpl; [done|].
  destruct (it_improved it); simpl; lia.
Qed.

(** The first turn of a run always yields. *)
Lemma chain_first_yield s inv (nid : nat) log :
  chain s inv None nid log → log ≠ [] → 1 ≤ length (yields log).
Proof.
  destruct log as [|it log]; [done|].
  intros [(_ & _ & _ & _ & _ & Himp & _) _] _.
  unfold yields. simpl in *. rewrite Himp. simpl. lia.
Qed.

End SolverFacts.

(** ** The walkers keep the contract *)

Section WalkerFacts.
Import Demo.

Lemma walker_move_picks (w : World) (ph : Store) (g : Rng) (a : Walker) :
  walker_can_move a = true →
  ∃ n, n ∈ candidates a
       ∧ walker_move w ph g a
         = ((w_pos a, n),
            {| w_world := w_world a; w_pos := n;
               w_unvisited := filter (λ k, k ≠ n) (w_unvisited a);
               w_moves := w_moves a ++ [(w_pos a, n)];
               w_distance := (w_distance a + 1)%Q |},
            rng_next g).
Proof.
  unfold walker_can_move, walker_move, randrange. intros Hcan.
  destruct (candidates a) as [|c cs] eqn:Hc; [done|].
  pose proof (Nat.mod_upper_bound (tape g (pos g)) (length (c :: cs))) as Hr.
  destruct (lookup_lt_is_Some_2 (c :: cs)
              (tape g (pos g) `mod` length (c :: cs))) as [n Hn].
  { apply Hr. simpl. lia. }
  exists n. rewrite Hn. split; [|done]. by eapply list_elem_of_lookup_2.
Qed.

Lemma walker_contract (s : Solver) :
  AntContract s (walker_inv (world s)) walker_budget.
Proof.
  split.
  - intros n Hn. unfold walker_inv. simpl.
    repeat split; done.
  - intros ph g a (Hw & Hkeys & Hpos & _ & _) Hcan.
    destruct (walker_move_picks (world s) ph g a Hcan) as (n & Hn & E).
    simpl in *. rewrite E. simpl.
    apply list_elem_of_filter in Hn as [Hkey _]. rewrite Hw in Hkey.
    assert (0 < w_distance a + 1)%Q as Hpos'.
    { apply Qle_lt_trans with (w_distance a + 0)%Q.
      - by rewrite Qplus_0_r.
      - by apply Qplus_lt_r. }
    split; [done|]. split; [|split; [|split]]; simpl.
    + apply Forall_app. split; [done|]. by constructor.
    + by apply Qlt_le_weak.
    + by intros []%app_eq_nil.
    + done.
  - intros ph g a (Hw & _) Hcan.
    destruct (walker_move_picks (world s) ph g a Hcan) as (n & Hn & E).
    simpl in *. rewrite E. simpl.
    apply list_elem_of_filter in Hn as [Hkey _]. by rewrite Hw in Hkey.
  - intros ph g a _ Hcan.
    destruct (walker_move_picks (world s) ph g a Hcan) as (n & Hn & E).
    simpl in *. rewrite E. unfold walker_budget. simpl.
    apply list_elem_of_filter in Hn as [_ Hn].
    apply (length_filter_lt _ _ n); [done|]. by intros [].
  - by intros a (_ & Hkeys & _).
Qed.

Lemma walker_far (w : World) :
  Forall (λ n, walker_can_move (walker_init w 0 0 n) = true) (nodes w) →
  finished_far (A:=Walker) (walker_inv w).
Proof.
  intros Hstart a (Hw & _ & _ & Hinit & Hmoved) Hstuck.
  destruct (w_moves a) as [|m ms] eqn:Hms; [|by apply Hmoved].
  destruct Hinit as (Hpos & Hunv & Hd); [done|].
  rewrite Forall_forall in Hstart. specialize (Hstart _ Hpos).
  destruct a as [w' p u ms' d]. simpl in *. subst.
  unfold walker_init in Hstart. congruence.
Qed.

End WalkerFacts.

(** ** The properties of the solver *)

Import Demo.

(** *** The solver at work on the triangle *)

(** The stable sort keeps the two ants of distance 2 in their input
    order, before the ant of distance 3. *)
Example sorted_three_ants : oid <$> sorted three_ants = [1; 2; 0].
Proof. reflexivity. Qed.

(** The first move of a run takes its edge from [0.01] to [0.008]. *)
Example first_move_decay :
  match find_solutions 8 (Solver_init triangle)
          [new_ant (Solver_init triangle) 0 0]
          (reset_pheromone (Solver_init triangle) ph0) g0 with
  | Ok (ants, ph, _) =>
      (w_moves ∘ body <$> ants, ph 0, ph 1, ph 2)
      = ([[(0, 1); (1, 2)]], (8 # 1000)%Q, (1 # 100)%Q, (8 # 1000)%Q)
  | _ => False
  end.
Proof. vm_compute. reflexivity. Qed.

(** Three turns of [solve]: the ant returned is the object made in the
    first turn, after the three ants of its colony. *)
Example solve_triangle :
  match solve 8 (Solver_init triangle) 3 ph0 g0 0 with
  | Ok (Some best) =>
      (oid best, w_moves (body best), w_distance (body best))
      = (3, [(0, 2); (2, 1)], 2%Q)
  | _ => False
  end.
Proof. vm_compute. reflexivity. Qed.

(** With [elite = 0] the elitist trace writes nothing. *)
Example trace_elite_disabled :
  trace_elite (with_elite 0 (Solver_init triangle)) elite_ant ph0 = Ok ph0.
Proof. reflexivity. Qed.

(** With [ant_count = 2] on five nodes, [random_ants] makes five ants. *)
Example random_ants_five :
  match random_ants (A:=Walker) (with_ant_count 2 (Solver_init five_nodes))
          g0 0 with
  | Ok (ants, _, nid) => (w_pos ∘ body <$> ants, nid) = ([0; 2; 4; 3; 1], 5)
  | _ => False
  end.
Proof. vm_compute. reflexivity. Qed.

(** C10. A colony of fewer than two ants has an empty better half
    ([len(ants) // 2] is 0): [update_scent] writes no edge and returns the
    pheromone as it was. *)
Theorem update_scent_fewer_than_two {A : Type} `{AntClass A}
    (s : Solver) (ants : list (Ant A)) (ph : Store) :
  length ants < 2 →
  better_half ants = [] ∧ update_scent s ants ph = Ok ph.
Proof.
  intros Hlen. pose proof (better_half_small ants Hlen) as Hhalf.
  split; [done|]. unfold update_scent. by rewrite Hhalf.
Qed.

Lemma update_scent_fewer_than_two_witness :
  length [tour 0 2 [(0, 1); (1, 2)]] < 2
  ∧ better_half [tour 0 2 [(0, 1); (1, 2)]] = []
  ∧ update_scent (Solver_init triangle) [tour 0 2 [(0, 1); (1, 2)]] ph0
    = Ok ph0.
Proof.
  split; [simpl; lia|].
  apply (update_scent_fewer_than_two (Solver_init triangle)
           [tour 0 2 [(0, 1); (1, 2)]] ph0).
  simpl; lia.
Defined.

(** C8. In [find_solutions], the turn of an ant that can move multiplies
    the pheromone of the edge its move resolves to by [rho] (not by
    [1 - rho]) and leaves the pheromone of every other edge as it was. *)
Theorem local_decay_by_rho {A : Type} `{AntClass A}
    (s : Solver) (ant : Ant A) (ph : Store) (g : Rng) (d : nat)
    (m : Move) (a' : A) (g' : Rng) (e : EdgeRef) :
  can_move (body ant) = true →
  move (world s) ph g (body ant) = (m, a', g') →
  edges (world s) !! m = Some e →
  ∃ ph',
    turn s ant ph g d = Ok ({| oid := oid ant; body := a' |}, ph', g', d)
    ∧ ph' e = (ph e * rho s)%Q
    ∧ (∀ e', e' ≠ e → ph' e' = ph e')
    ∧ ∀ rest,
        sweep s (ant :: rest) ph g d
        = (do '(rest', ph2, g2, d2) <- sweep s rest ph' g' d;
           Ok ({| oid := oid ant; body := a' |} :: rest', ph2, g2, d2)).
Proof.
  intros Hcan Hmove He. exists (<[e := (ph e * rho s)%Q]> ph).
  pose proof (turn_moves s ant ph g d m a' g' e Hcan Hmove He) as Hturn.
  split; [done|]. split; [apply fn_lookup_insert|]. split.
  - intros e' Hne. by apply fn_lookup_insert_ne.
  - intros rest. simpl sweep. by rewrite Hturn.
Qed.

Lemma local_decay_by_rho_witness :
  ∃ ph',
    turn (Solver_init triangle) (new_ant (Solver_init triangle) 0 0)
      (reset_pheromone (Solver_init triangle) ph0) g0 0
    = Ok ({| oid := 0;
             body := {| w_world := triangle; w_pos := 1; w_unvisited := [2];
                        w_moves := [(0, 1)]; w_distance := 0 + 1 |} |},
          ph', rng_next g0, 0)
    ∧ ph' 0 = (reset_pheromone (Solver_init triangle) ph0 0 * (8 # 10))%Q
    ∧ (∀ e', e' ≠ 0 → ph' e' = reset_pheromone (Solver_init triangle) ph0 e')
    ∧ ∀ rest,
        sweep (Solver_init triangle)
          (new_ant (Solver_init triangle) 0 0 :: rest)
          (reset_pheromone (Solver_init triangle) ph0) g0 0
        = (do '(rest', ph2, g2, d2) <-
             sweep (Solver_init triangle) rest ph' (rng_next g0) 0;
           Ok ({| oid := 0;
                  body := {| w_world := triangle; w_pos := 1;
                             w_unvisited := [2]; w_moves := [(0, 1)];
                             w_distance := 0 + 1 |} |} :: rest',
               ph2, g2, d2)).
Proof.
  apply (local_decay_by_rho (Solver_init triangle)
           (new_ant (Solver_init triangle) 0 0)
           (reset_pheromone (Solver_init triangle) ph0) g0 0 (0, 1)
           {| w_world := triangle; w_pos := 1; w_unvisited := [2];
              w_moves := [(0, 1)]; w_distance := 0 + 1 |}
           (rng_next g0) 0);
    reflexivity.
Defined.

(** C9. When every ant can make only finitely many moves (each move
    lowers its budget), [find_solutions] terminates: with the budgets of
    the colony and two more as fuel it returns after some number [k] of
    passes, no ant of the colony it leaves can move, and a pass is the
    last one exactly when every ant reported in it that it cannot move;
    an empty colony takes no pass. *)
Theorem find_solutions_terminates {A : Type} `{AntClass A}
    (s : Solver) (inv : A → Prop) (budget : A → nat) (fuel : nat)
    (ants : list (Ant A)) (ph : Store) (g : Rng) :
  AntContract s inv budget →
  colony_inv inv ants →
  colony_budget budget ants + 2 ≤ fuel →
  ∃ k ants' ph' g',
    find_solutions fuel s ants ph g = Ok (ants', ph', g')
    ∧ sweeps s k ants ph g = Ok (ants', ph', g')
    ∧ all_done ants'
    ∧ (k = 0 ↔ ants = [])
    ∧ ∀ j antsj phj gj, j < k →
        sweeps s j ants ph g = Ok (antsj, phj, gj) →
        (all_done antsj ↔ S j = k).
Proof.
  intros Hcontract Hinv Hfuel.
  destruct (find_solutions_contract s inv budget Hcontract fuel ants ph g
              Hinv Hfuel)
    as (k & ants' & ph' & g' & Hfind & Hsweeps & Hdone & _ & _ & Hk & Hexit).
  by exists k, ants', ph', g'.
Qed.

Lemma three_starts_inv : colony_inv (walker_inv triangle) three_starts.
Proof.
  pose proof (init_inv _ _ _ (walker_contract (Solver_init triangle))) as Hi.
  repeat constructor; apply Hi; simpl; set_solver.
Qed.

Lemma find_solutions_terminates_witness :
  ∃ k ants' ph' g',
    find_solutions 8 (Solver_init triangle) three_starts ph0 g0
      = Ok (ants', ph', g')
    ∧ sweeps (Solver_init triangle) k three_starts ph0 g0
      = Ok (ants', ph', g')
    ∧ all_done ants'
    ∧ (k = 0 ↔ three_starts = [])
    ∧ ∀ j antsj phj gj, j < k →
        sweeps (Solver_init triangle) j three_starts ph0 g0
          = Ok (antsj, phj, gj) →
        (all_done antsj ↔ S j = k).
Proof.
  apply (find_solutions_terminates (Solver_init triangle)
           (walker_inv triangle) walker_budget 8 three_starts ph0 g0
           (walker_contract (Solver_init triangle)) three_starts_inv).
  vm_compute. lia.
Defined.

(** C4. [update_scent] selects the [len(ants) // 2] first ants of the
    stable ascending sort by distance: the selected ants and the rest are
    a rearrangement of the colony in ascending order of distance in which
    ants of equal distance keep their input order.  When the moves of the
    selected ants are keys of the world and their distances are not zero,
    it returns, and the pheromone of every edge is the result of one write
    [max(t0, (1 - rho) * current + q / ant.distance)] per traversal of
    the edge by a selected ant, in the order of the loops; an edge that no
    selected ant traverses keeps its pheromone. *)
Theorem update_scent_better_half {A : Type} `{AntClass A}
    (s : Solver) (ants : list (Ant A)) (ph : Store) :
  Forall (λ a, ¬ (distance (body a) == 0)%Q
               ∧ Forall (λ m, is_Some (edges (world s) !! m))
                   (moves (body a))) (better_half ants) →
  ∃ ph' rest,
    update_scent s ants ph = Ok ph'
    ∧ sorted ants = better_half ants ++ rest
    ∧ length (better_half ants) = length ants / 2
    ∧ better_half ants ++ rest ≡ₚ ants
    ∧ StronglySorted ant_le (better_half ants ++ rest)
    ∧ (∀ d, at_distance d (better_half ants ++ rest) = at_distance d ants)
    ∧ (∀ e, ph' e
            = fold_left (λ cur p, py_max (t0 s) ((1 - rho s) * cur + p)%Q)
                (laid_on s e (better_half ants)) (ph e))
    ∧ (∀ e, (∀ a m, a ∈ better_half ants → m ∈ moves (body a) →
               edges (world s) !! m ≠ Some e) →
            ph' e = ph e).
Proof.
  intros Hsel.
  destruct (lay_scents_Ok s (better_half ants) ph Hsel) as [ph' Hph'].
  exists ph', (drop (length ants / 2) (sorted ants)).
  assert (sorted ants
          = better_half ants ++ drop (length ants / 2) (sorted ants)) as Hsplit.
  { unfold better_half. by rewrite take_drop. }
  split; [done|]. split; [done|]. split.
  { unfold better_half. rewrite length_take, (Permutation_length (sorted_perm ants)).
    apply Nat.min_l. apply Nat.Div0.div_le_upper_bound. lia. }
  rewrite <- Hsplit.
  split; [apply sorted_perm|]. split; [apply sorted_ascending|].
  split; [intros d; apply sorted_stable|].
  split.
  - intros e. by apply lay_scents_at.
  - intros e Hfree. rewrite (lay_scents_at _ _ _ _ e Hph').
    apply laid_on_nil_iff in Hfree. by rewrite Hfree.
Qed.

Lemma three_ants_scented :
  Forall (λ a : Ant Walker,
            ¬ (distance (body a) == 0)%Q
            ∧ Forall (λ m, is_Some (edges (world (Solver_init triangle)) !! m))
                (moves (body a))) (better_half three_ants).
Proof.
  repeat constructor; try (by eexists); by intros [=].
Qed.

Lemma update_scent_better_half_witness :
  ∃ ph' rest,
    update_scent (Solver_init triangle) three_ants ph0 = Ok ph'
    ∧ sorted three_ants = better_half three_ants ++ rest
    ∧ length (better_half three_ants) = length three_ants / 2
    ∧ better_half three_ants ++ rest ≡ₚ three_ants
    ∧ StronglySorted ant_le (better_half three_ants ++ rest)
    ∧ (∀ d, at_distance d (better_half three_ants ++ rest)
            = at_distance d three_ants)
    ∧ (∀ e, ph' e
            = fold_left
                (λ cur p, py_max (1 # 100) ((1 - (8 # 10)) * cur + p)%Q)
                (laid_on (Solver_init triangle) e (better_half three_ants))
                (ph0 e))
    ∧ (∀ e, (∀ a m, a ∈ better_half three_ants → m ∈ moves (body a) →
               edges triangle !! m ≠ Some e) →
            ph' e = ph0 e).
Proof.
  exact (update_scent_better_half (Solver_init triangle) three_ants ph0
           three_ants_scented).
Defined.

Lemma trace_moves_iter {A : Type} `{AntClass A} (s : Solver) (ant : Ant A)
    (ms : list Move) (ph ph' : Store) (e : EdgeRef) :
  for_each (trace_move s ant) ms ph = Ok ph' →
  ph' e = Nat.iter (length (uses (world s) e ms))
            (λ x, (x + elite_deposit s ant)%Q) (ph e).
Proof.
  revert ph. induction ms as [|m ms IH]; intros ph.
  - by intros [= <-].
  - simpl for_each. intros (ph1 & Hm & Hms)%obind_Ok.
    rewrite (IH _ Hms), (trace_move_at _ _ _ _ _ e Hm).
    unfold uses. simpl. destruct (resolves (world s) e m); [|done].
    simpl length. by rewrite Nat.iter_succ_r.
Qed.

Lemma iter_add_le (d x : Q) (n : nat) :
  (0 <= d)%Q → (x <= Nat.iter n (λ y : Q, y + d) x)%Q.
Proof.
  intros Hd. induction n as [|n IH]; simpl; [apply Qle_refl|].
  eapply Qle_trans; [exact IH|].
  rewrite <- (Qplus_0_r (Nat.iter n _ x)) at 1. by apply Qplus_le_r.
Qed.

(** C6, as the code has it.  With a truthy [elite], moves that are keys
    of the world and a distance that is not zero, [trace_elite] returns,
    and the pheromone of every edge is what it was with
    [elite * q / ant.distance] added once per traversal of the edge by
    the ant, with no clamp; no edge is lower than before when [elite],
    [q] and the distance are not negative.  (The rise is not strict: see
    [elite_deposit_absorbed].)  With a falsy [elite] it returns the
    pheromone as it was.  A turn of the loop of [solve] returns, and in it
    [trace_elite] is run once, after [update_scent], on the global best
    of the turn, which is the global best of before whenever the local
    best did not improve on it. *)
Theorem trace_elite_adds {A : Type} `{AntClass A}
    (s : Solver) (inv : A → Prop) (budget : A → nat) (fuel : nat)
    (ant : Ant A) (ph : Store) (gb : option (Ant A)) (ph0 : Store)
    (g : Rng) (nid : nat) :
  Forall (λ m, is_Some (edges (world s) !! m)) (moves (body ant)) →
  ¬ (distance (body ant) == 0)%Q →
  AntContract s inv budget → finished_far inv →
  (1 <= ant_count s)%Z → nodes (world s) ≠ [] →
  enough_fuel s budget ≤ fuel →
  (∀ gb0, gb = Some gb0 → good inv gb0) →
  (truthy (elite s) = true →
   ∃ ph', trace_elite s ant ph = Ok ph'
     ∧ (∀ e, ph' e
             = Nat.iter (length (uses (world s) e (moves (body ant))))
                 (λ x, (x + elite s * q s / distance (body ant))%Q) (ph e))
     ∧ ((0 <= elite s)%Q → (0 <= q s)%Q → (0 <= distance (body ant))%Q →
        ∀ e, (ph e <= ph' e)%Q))
  ∧ (truthy (elite s) = false → trace_elite s ant ph = Ok ph)
  ∧ ∃ it,
      iteration fuel s gb ph0 g nid = Ok it
      ∧ (if truthy (elite s)
         then trace_elite s (it_global_best it) (it_scent it)
         else Ok (it_scent it)) = Ok (it_pheromone it)
      ∧ (∃ ph1, update_scent s (it_colony it) ph1 = Ok (it_scent it))
      ∧ (improves (it_local_best it) gb = false →
         gb = Some (it_global_best it))
      ∧ (improves (it_local_best it) gb = true →
         ∃ id, it_global_best it = clone (it_local_best it) id).
Proof.
  intros Hkeys Hd Hcontract Hfar Hcount Hnodes Hfuel Hgb.
  split; [|split].
  - intros Helite.
    destruct (trace_elite_Ok s ant ph Hkeys Hd) as [ph' Hph'].
    exists ph'. split; [done|].
    assert (∀ e, ph' e
                 = Nat.iter (length (uses (world s) e (moves (body ant))))
                     (λ x, (x + elite_deposit s ant)%Q) (ph e)) as Hat.
    { intros e. unfold trace_elite in Hph'. rewrite Helite in Hph'.
      by apply trace_moves_iter. }
    split; [exact Hat|].
    intros He Hq Hdist e. rewrite Hat. apply iter_add_le.
    by apply elite_deposit_nonneg.
  - apply trace_elite_falsy.
  - destruct (iteration_ok s inv budget Hcontract Hfar Hcount Hnodes fuel
                gb ph0 g nid Hfuel Hgb) as (it & Hit & _).
    exists it. split; [done|].
    apply iteration_inv in Hit
      as (ants0 & g1 & nid1 & ph2 & _ & _ & Hscent & _ & Himp & Hcase & Htrace).
    split; [done|]. split; [by exists ph2|]. rewrite <- Himp.
    split; intros Hwhich; rewrite Hwhich in Hcase; destruct Hcase; eauto.
Qed.

Lemma triangle_far : finished_far (A:=Walker) (walker_inv triangle).
Proof. apply walker_far. by repeat constructor. Qed.

Lemma elite_ant_keys :
  Forall (λ m, is_Some (edges (world (Solver_init triangle)) !! m))
    (moves (body elite_ant)).
Proof. repeat constructor; by eexists. Qed.

Lemma trace_elite_adds_witness :
  truthy (elite (Solver_init triangle)) = true
  ∧ (∃ ph', trace_elite (Solver_init triangle) elite_ant ph0 = Ok ph'
       ∧ (∀ e, ph' e
               = Nat.iter (length (uses triangle e (moves (body elite_ant))))
                   (λ x, (x + (5 # 10) * 1 / 2)%Q) (ph0 e))
       ∧ ∀ e, (ph0 e <= ph' e)%Q)
  ∧ ∃ it : @Iteration Walker,
      iteration 8 (Solver_init triangle) None
        (reset_pheromone (Solver_init triangle) ph0) g0 0 = Ok it
      ∧ trace_elite (Solver_init triangle) (it_global_best it) (it_scent it)
        = Ok (it_pheromone it)
      ∧ (∃ ph1, update_scent (Solver_init triangle) (it_colony it) ph1
                = Ok (it_scent it))
      ∧ ∃ id, it_global_best it = clone (it_local_best it) id.
Proof.
  split; [reflexivity|].
  destruct (trace_elite_adds (Solver_init triangle) (walker_inv triangle)
              walker_budget 8 elite_ant ph0 None
              (reset_pheromone (Solver_init triangle) ph0) g0 0
              elite_ant_keys)
    as (Hadds & _ & it & Hit & Htrace & Hscent & _ & Hclone).
  - by intros [=].
  - exact (walker_contract (Solver_init triangle)).
  - exact triangle_far.
  - by intros [=].
  - by intros [=].
  - vm_compute. lia.
  - by intros gb0 [=].
  - split.
    + destruct (Hadds eq_refl) as (ph' & Hph' & Hat & Hup).
      exists ph'. split; [exact Hph'|]. split; [exact Hat|].
      apply Hup; by intros [=].
    + exists it. split; [exact Hit|]. split; [exact Htrace|].
      split; [exact Hscent|]. by apply Hclone.
Defined.

(** C6 fails on floats: an ant of distance [1e18] traces the edge of its
    move at level [0.01] with [elite = 0.5] and [q = 1], all positive, and
    the deposit [5e-19] is absorbed by the sum: the level of the edge is
    what it was, not strictly higher. *)
Lemma elite_deposit_absorbed :
  ∃ ph' : nat → float,
    Binary64.trace_elite triangle 0.5 1 1e18 [(0, 1)]
      (λ _, Binary64.one_hundredth) = Ok ph'
    ∧ edges triangle !! (0, 1) = Some 0
    ∧ (0 <? 0.5)%float = true ∧ (0 <? 1)%float = true
    ∧ (0 <? 1e18)%float = true
    ∧ (Binary64.one_hundredth <? ph' 0%nat)%float = false
    ∧ ph' 0 = Binary64.one_hundredth.
Proof.
  eexists. split; [reflexivity|]. by vm_compute.
Qed.

(** C1, as the code has it.  After [reset_pheromone] every edge of the
    world is at [t0]; after [update_scent] every edge that a selected ant
    traverses is at [t0] or above, and an edge that was at [t0] or above
    still is; [trace_elite] with [elite], [q] and the distance not
    negative lowers no edge.  (The local decay of [find_solutions] has no
    clamp: see [pheromone_below_floor].) *)
Theorem pheromone_floor_global_updates {A : Type} `{AntClass A}
    (s : Solver) (ants : list (Ant A)) (ant : Ant A) (ph ph1 ph2 ph3 : Store) :
  update_scent s ants ph = Ok ph1 →
  (0 <= elite s)%Q → (0 <= q s)%Q → (0 <= distance (body ant))%Q →
  trace_elite s ant ph2 = Ok ph3 →
  (∀ ph0 e, e ∈ edge_values (world s) → reset_pheromone s ph0 e = t0 s)
  ∧ (∀ a m e, a ∈ better_half ants → m ∈ moves (body a) →
       edges (world s) !! m = Some e → (t0 s <= ph1 e)%Q)
  ∧ (∀ e, (t0 s <= ph e)%Q → (t0 s <= ph1 e)%Q)
  ∧ (∀ e, (ph2 e <= ph3 e)%Q).
Proof.
  intros Hscent He Hq Hd Htrace. split; [|split; [|split]].
  - intros ph0 e. apply reset_pheromone_at.
  - intros a m e Ha Hm Hme. unfold update_scent in Hscent.
    rewrite (lay_scents_at _ _ _ _ e Hscent). apply relays_floor. left.
    intros Hnil. eapply laid_on_nil_iff in Hnil; [|exact Ha|exact Hm]. done.
  - intros e Hfloor. unfold update_scent in Hscent.
    rewrite (lay_scents_at _ _ _ _ e Hscent). apply relays_floor. by right.
  - intros e. destruct (truthy (elite s)) eqn:Helite.
    + rewrite (trace_elite_at _ _ _ _ e Helite Htrace).
      pose proof (elite_deposit_nonneg s ant He Hq Hd) as Hdep.
      assert (0 <= Qnat (length (uses (world s) e (moves (body ant)))))%Q
        as Hn.
      { unfold Qnat. change 0%Q with (inject_Z 0). rewrite <- Zle_Qle. lia. }
      pose proof (Qmult_le_0_compat _ _ Hn Hdep) as Hprod.
      rewrite <- (Qplus_0_r (ph2 e)) at 1. by apply Qplus_le_r.
    + rewrite (trace_elite_falsy _ _ _ Helite) in Htrace.
      injection Htrace as <-. apply Qle_refl.
Qed.

Lemma pheromone_floor_global_updates_witness :
  ∃ ph1 ph3,
    update_scent (Solver_init triangle) three_ants ph0 = Ok ph1
    ∧ trace_elite (Solver_init triangle) elite_ant ph1 = Ok ph3
    ∧ (∀ ph e, e ∈ edge_values triangle →
         reset_pheromone (Solver_init triangle) ph e = (1 # 100)%Q)
    ∧ (∀ a m e, a ∈ better_half three_ants → m ∈ moves (body a) →
         edges triangle !! m = Some e → (1 # 100 <= ph1 e)%Q)
    ∧ (∀ e, (1 # 100 <= ph0 e)%Q → (1 # 100 <= ph1 e)%Q)
    ∧ (∀ e, (ph1 e <= ph3 e)%Q).
Proof.
  eexists _, _. split; [reflexivity|]. split; [reflexivity|].
  apply (pheromone_floor_global_updates (Solver_init triangle) three_ants
           elite_ant ph0); [reflexivity|by intros [=]..|reflexivity].
Defined.

(** The edge of [Hedge] is below the floor: read its level and compare. *)
Ltac below_floor Hedge :=
  let Hfloor := fresh "Hfloor" in
  intros Hfloor; specialize (Hfloor _ Hedge); vm_compute in Hfloor;
  by apply Hfloor.

(** C1 fails: the first move of an ant takes the edge it traverses from
    [t0] to [rho * t0], below the floor, and at the end of the first turn
    of the loop of [solve], after [update_scent] and after [trace_elite],
    an edge of the world is still below [t0]. *)
Lemma pheromone_below_floor :
  (∃ ant' ph' g' d',
     turn (Solver_init triangle) (new_ant (Solver_init triangle) 0 0)
       (reset_pheromone (Solver_init triangle) ph0) g0 0
     = Ok (ant', ph', g', d')
     ∧ ¬ floor_ok (Solver_init triangle) ph')
  ∧ (∃ it : @Iteration Walker,
       iteration 8 (Solver_init triangle) None
         (reset_pheromone (Solver_init triangle) ph0) g0 0 = Ok it
       ∧ ¬ floor_ok (Solver_init triangle) (it_scent it)
       ∧ ¬ floor_ok (Solver_init triangle) (it_pheromone it)).
Proof.
  assert (0 ∈ edge_values triangle) as Hedge.
  { apply (edge_values_elem triangle (0, 1)). reflexivity. }
  split.
  - eexists _, _, _, _. split; [reflexivity|]. below_floor Hedge.
  - eexists. split; [vm_compute; reflexivity|].
    split; below_floor Hedge.
Qed.

(** C2 on the code: whenever [ant_count] is positive, [random_ants]
    returns one ant per node of the world, started on the nodes in a drawn
    order without repetition, whatever [ant_count] is: the guard of its
    loop reads [ant_count] and the loop never lowers it. *)
Theorem random_ants_one_per_node {A : Type} `{AntClass A}
    (s : Solver) (g : Rng) (nid : nat) :
  (0 < ant_count s)%Z →
  ∃ starts ants g' nid',
    random_ants s g nid = Ok (ants, g', nid')
    ∧ length ants = length (nodes (world s))
    ∧ body <$> ants
      = Ant_init (world s) (alpha s) (beta s) <$> starts
    ∧ starts ≡ₚ nodes (world s).
Proof.
  intros Hcount.
  destruct (random_ants_draws s g nid Hcount) as (drawn & g' & Hrun & Hperm).
  exists drawn. eexists _, _, _. split; [exact Hrun|].
  split; [by rewrite length_imap, Hperm|]. split; [|done].
  clear. generalize nid. induction drawn as [|n l IH]; intros k; [done|].
  rewrite imap_cons, !fmap_cons. simpl. f_equal.
  rewrite <- (IH (S k)). f_equal. apply imap_ext. intros i x _.
  simpl. f_equal. lia.
Qed.

Lemma random_ants_one_per_node_witness :
  (0 < ant_count (with_ant_count 2 (Solver_init five_nodes)))%Z
  ∧ ∃ starts (ants : list (Ant Walker)) g' nid',
      random_ants (with_ant_count 2 (Solver_init five_nodes)) g0 0
        = Ok (ants, g', nid')
      ∧ length ants = 5
      ∧ body <$> ants = walker_init five_nodes 1 3 <$> starts
      ∧ starts ≡ₚ [0; 1; 2; 3; 4].
Proof.
  split; [reflexivity|].
  exact (random_ants_one_per_node (A:=Walker)
           (with_ant_count 2 (Solver_init five_nodes)) g0 0 eq_refl).
Defined.

(** C3 on the code: with [ant_count] below 1, [round_robin_ants] ranges
    over [range(ant_count)], which is empty, and returns no ant at all;
    [ant_count] is not set to the number of nodes anywhere, and
    [solve] then stops in [get_best_ant] with an [IndexError] on the
    empty colony. *)
Theorem round_robin_without_ants {A : Type} `{AntClass A}
    (s : Solver) (fuel : nat) (limit : Z) (ph : Store) (g : Rng) (nid : nat) :
  (ant_count s < 1)%Z → (1 <= limit)%Z → 1 ≤ fuel →
  round_robin_ants (A:=A) s nid = Ok ([], nid)
  ∧ solve (A:=A) fuel s limit ph g nid = Raise IndexError.
Proof.
  intros Hcount Hlimit Hfuel.
  pose proof (round_robin_ants_none (A:=A) s nid Hcount) as Hnone.
  split; [done|]. unfold solve.
  destruct (Z.to_nat limit) as [|n] eqn:Hn; [lia|].
  simpl solve_loop. unfold iteration, build_colony.
  rewrite (proj2 (Z.ltb_lt _ _) Hcount), Hnone. simpl obind.
  destruct fuel as [|fuel]; [lia|]. done.
Qed.

Lemma round_robin_without_ants_witness :
  (ant_count (with_ant_count 0 (Solver_init five_nodes)) < 1)%Z
  ∧ round_robin_ants (A:=Walker) (with_ant_count 0 (Solver_init five_nodes)) 0
    = Ok ([], 0)
  ∧ solve (A:=Walker) 1 (with_ant_count 0 (Solver_init five_nodes)) 10 ph0 g0 0
    = Raise IndexError.
Proof.
  split; [reflexivity|].
  apply (round_robin_without_ants (A:=Walker)
           (with_ant_count 0 (Solver_init five_nodes)) 1 10 ph0 g0 0);
    [reflexivity|by intros [=]|lia].
Defined.

Lemma chain_elem {A : Type} `{AntClass A} (s : Solver) (inv : A → Prop)
    (gb : option (Ant A)) (nid : nat) (log : list Iteration)
    (it : Iteration) :
  chain s inv gb nid log → it ∈ log →
  ∃ gb' nid', step_ok s inv gb' nid' it.
Proof.
  intros Hchain [i Hi]%list_elem_of_lookup.
  destruct (chain_lookup _ _ _ _ _ _ _ Hchain Hi) as [nid' Hstep]. eauto.
Qed.

(** C5. For [limit] at least 1, in a world with nodes, with
    [ant_count] at least 1 and ants that keep their contract and finish
    with a positive distance, [solutions(limit)] runs to its end without
    an exception and yields between 1 and [limit] ants, each strictly
    shorter than all those yielded before; the ants yielded are the
    global bests of the turns that improved, and each is a new object, no
    ant of the colony, that copies the ant of least distance of the colony
    of its turn. *)
Theorem solutions_strictly_improving {A : Type} `{AntClass A}
    (s : Solver) (inv : A → Prop) (budget : A → nat) (fuel : nat)
    (limit : Z) (ph : Store) (g : Rng) (nid : nat) :
  AntContract s inv budget → finished_far inv →
  (1 <= ant_count s)%Z → nodes (world s) ≠ [] →
  (1 <= limit)%Z → enough_fuel s budget ≤ fuel →
  ∃ log,
    solutions fuel s limit ph g nid = (yields log, Ok tt)
    ∧ iterations fuel s (Z.to_nat limit) None (reset_pheromone s ph) g nid
      = Ok log
    ∧ length log = Z.to_nat limit
    ∧ 1 ≤ length (yields log) ≤ Z.to_nat limit
    ∧ StronglySorted shorter_after (yields log)
    ∧ ∀ y, y ∈ yields log →
        ∃ it id, it ∈ log ∧ it_improved it = true
          ∧ y = clone (it_local_best it) id
          ∧ it_local_best it ∈ it_colony it
          ∧ ∀ a, a ∈ it_colony it →
              ant_le (it_local_best it) a ∧ oid y ≠ oid a.
Proof.
  intros Hcontract Hfar Hcount Hnodes Hlimit Hfuel.
  destruct (run_ok s inv budget Hcontract Hfar Hcount Hnodes fuel
              (Z.to_nat limit) None (reset_pheromone s ph) g nid Hfuel)
    as (log & Hlog & Hlen & _ & Hsols & Hchain); [done|].
  exists log. split; [done|]. split; [done|]. split; [done|].
  split; [split|].
  - apply (chain_first_yield _ _ _ _ Hchain). intros ->. simpl in Hlen. lia.
  - rewrite <- Hlen. apply yields_length.
  - split; [by apply (chain_yields _ _ _ _ _ Hchain)|].
    intros y Hy. unfold yields in Hy.
    apply list_elem_of_fmap in Hy as (it & -> & Hit).
    apply list_elem_of_In, filter_In in Hit as [Hit Himp].
    apply list_elem_of_In in Hit.
    destruct (chain_elem _ _ _ _ _ _ Hchain Hit)
      as (gb' & nid' & _ & _ & Hids & Hlb & Hmin & _ & Hcase).
    rewrite Himp in Hcase. destruct Hcase as [Hclone _].
    exists it, (nid' + length (nodes (world s))).
    split; [done|]. split; [done|]. split; [done|]. split; [done|].
    intros a Ha. split; [by apply Hmin|].
    rewrite Hclone. simpl. specialize (Hids a Ha). lia.
Qed.

Lemma solutions_strictly_improving_witness :
  ∃ log : list (@Iteration Walker),
    solutions 8 (Solver_init triangle) 3 ph0 g0 0 = (yields log, Ok tt)
    ∧ iterations 8 (Solver_init triangle) (Z.to_nat 3) None
        (reset_pheromone (Solver_init triangle) ph0) g0 0 = Ok log
    ∧ length log = Z.to_nat 3
    ∧ 1 ≤ length (yields log) ≤ Z.to_nat 3
    ∧ StronglySorted shorter_after (yields log)
    ∧ ∀ y, y ∈ yields log →
        ∃ it id, it ∈ log ∧ it_improved it = true
          ∧ y = clone (it_local_best it) id
          ∧ it_local_best it ∈ it_colony it
          ∧ ∀ a, a ∈ it_colony it →
              ant_le (it_local_best it) a ∧ oid y ≠ oid a.
Proof.
  apply (solutions_strictly_improving (Solver_init triangle)
           (walker_inv triangle) walker_budget 8 3 ph0 g0 0
           (walker_contract (Solver_init triangle)) triangle_far).
  - by intros [=].
  - by intros [=].
  - by intros [=].
  - vm_compute. lia.
Defined.

(** C7. For [limit] at least 1, in a world with nodes, with
    [ant_count] at least 1 and ants that keep their contract and finish
    with a positive distance, [solve(limit)] runs exactly [limit] turns of
    its loop and returns an ant: the global best of the last turn, which
    is no longer than any ant of any colony of the run, is a copy of one
    of them, and is an object that is no ant of any colony.  In every
    turn the colony is not empty, its local best is an ant of least
    distance, and the global best is replaced, by a new object that
    copies the local best, exactly when there was none or the local best
    is strictly shorter than it. *)
Theorem solve_best_of_all {A : Type} `{AntClass A}
    (s : Solver) (inv : A → Prop) (budget : A → nat) (fuel : nat)
    (limit : Z) (ph : Store) (g : Rng) (nid : nat) :
  AntContract s inv budget → finished_far inv →
  (1 <= ant_count s)%Z → nodes (world s) ≠ [] →
  (1 <= limit)%Z → enough_fuel s budget ≤ fuel →
  ∃ best log,
    solve fuel s limit ph g nid = Ok (Some best)
    ∧ iterations fuel s (Z.to_nat limit) None (reset_pheromone s ph) g nid
      = Ok log
    ∧ length log = Z.to_nat limit
    ∧ final_best None log = Some best
    ∧ (∀ it a, it ∈ log → a ∈ it_colony it →
         ant_le best a ∧ oid best ≠ oid a)
    ∧ (∃ it a, it ∈ log ∧ a ∈ it_colony it ∧ body best = body a)
    ∧ ∀ i it, log !! i = Some it →
        let before := final_best None (take i log) in
        it_colony it ≠ []
        ∧ it_local_best it ∈ it_colony it
        ∧ (∀ a, a ∈ it_colony it → ant_le (it_local_best it) a)
        ∧ it_improved it = improves (it_local_best it) before
        ∧ (if it_improved it
           then ∃ id, it_global_best it = clone (it_local_best it) id
           else before = Some (it_global_best it)).
Proof.
  intros Hcontract Hfar Hcount Hnodes Hlimit Hfuel.
  destruct (run_ok s inv budget Hcontract Hfar Hcount Hnodes fuel
              (Z.to_nat limit) None (reset_pheromone s ph) g nid Hfuel)
    as (log & Hlog & Hlen & Hsolve & _ & Hchain); [done|].
  assert (∃ best, final_best None log = Some best) as [best Hbest].
  { destruct log as [|it log]; [simpl in Hlen; lia|].
    rewrite final_best_cons. apply final_best_Some. }
  exists best, log. unfold solve. rewrite Hsolve.
  split; [by rewrite Hbest|]. split; [done|]. split; [done|].
  split; [done|].
  destruct (chain_fresh s inv None best nid log Hchain) as [_ Hfresh];
    [done|done|].
  split; [|split].
  - intros it a Hit Ha. split; [by eapply chain_min|by eapply Hfresh].
  - by destruct (chain_copy _ _ _ _ _ _ Hchain Hbest) as [?|?].
  - intros i it Hit. cbv zeta.
    destruct (chain_lookup _ _ _ _ _ _ _ Hchain Hit)
      as (nid' & Hne & _ & _ & Hlb & Hmin & Himp & Hcase).
    split; [done|]. split; [done|]. split; [done|]. split; [done|].
    destruct (it_improved it); [|by destruct Hcase].
    destruct Hcase as [Hclone _]. eauto.
Qed.

Lemma solve_best_of_all_witness :
  ∃ (best : Ant Walker) log,
    solve 8 (Solver_init triangle) 3 ph0 g0 0 = Ok (Some best)
    ∧ iterations 8 (Solver_init triangle) (Z.to_nat 3) None
        (reset_pheromone (Solver_init triangle) ph0) g0 0 = Ok log
    ∧ length log = Z.to_nat 3
    ∧ final_best None log = Some best
    ∧ (∀ it a, it ∈ log → a ∈ it_colony it →
         ant_le best a ∧ oid best ≠ oid a)
    ∧ (∃ it a, it ∈ log ∧ a ∈ it_colony it ∧ body best = body a)
    ∧ ∀ i it, log !! i = Some it →
        let before := final_best None (take i log) in
        it_colony it ≠ []
        ∧ it_local_best it ∈ it_colony it
        ∧ (∀ a, a ∈ it_colony it → ant_le (it_local_best it) a)
        ∧ it_improved it = improves (it_local_best it) before
        ∧ (if it_improved it
           then ∃ id, it_global_best it = clone (it_local_best it) id
           else before = Some (it_global_best it)).
Proof.
  apply (solve_best_of_all (Solver_init triangle)
           (walker_inv triangle) walker_budget 8 3 ph0 g0 0
           (walker_contract (Solver_init triangle)) triangle_far).
  - by intros [=].
  - by intros [=].
  - by intros [=].
  - vm_compute. lia.
Defined.

(** ** Further properties of the solver *)

(** *** [reset_pheromone] *)

Lemma edge_values_keys (w : World) (e : EdgeRef) :
  e ∈ edge_values w ↔ ∃ m, edges w !! m = Some e.
Proof.
  unfold edge_values. rewrite list_elem_of_fmap. split.
  - intros ([m e'] & -> & Hme). exists m. by apply elem_of_map_to_list.
  - intros [m Hm]. exists (m, e). split; [done|].
    by apply elem_of_map_to_list.
Qed.

(** X1. [reset_pheromone] puts every [Edge] object that a key of
    [world.edges] resolves to at exactly [t0], whatever the pheromone was
    before, and writes no other object; resetting twice is resetting
    once. *)
Theorem reset_pheromone_idempotent (s : Solver) (ph : Store) (e : EdgeRef) :
  reset_pheromone s (reset_pheromone s ph) e = reset_pheromone s ph e
  ∧ (∀ m, edges (world s) !! m = Some e → reset_pheromone s ph e = t0 s)
  ∧ ((∀ m, edges (world s) !! m ≠ Some e) → reset_pheromone s ph e = ph e).
Proof.
  assert (∀ ph', (∀ m, edges (world s) !! m ≠ Some e) →
                 reset_pheromone s ph' e = ph' e) as Hother.
  { intros ph' Hno. apply reset_pheromone_other.
    intros [m Hm]%edge_values_keys. by apply (Hno m). }
  split; [|split].
  - destruct (decide (e ∈ edge_values (world s))) as [Hin|Hout].
    + by rewrite !reset_pheromone_at.
    + by rewrite !reset_pheromone_other.
  - intros m Hm. apply reset_pheromone_at. by eapply edge_values_elem.
  - apply Hother.
Qed.

(** *** [get_best_ant] *)

Section BestAnt.
Context {A : Type} `{AntClass A}.

Lemma get_best_ant_head (ants : list (Ant A)) (best : Ant A) :
  get_best_ant ants = Ok best ↔ ∃ l, sorted ants = best :: l.
Proof.
  unfold get_best_ant. destruct (sorted ants) as [|b l]; split.
  - done.
  - by intros [l [=]].
  - intros [= ->]. by exists l.
  - by intros [l' [= -> _]].
Qed.

Lemma get_best_ant_first (ants : list (Ant A)) :
  ants ≠ [] →
  ∃ pre best post,
    ants = pre ++ best :: post
    ∧ get_best_ant ants = Ok best
    ∧ Forall (λ a, (distance (body best) < distance (body a))%Q) pre
    ∧ Forall (ant_le best) post.
Proof.
  induction ants as [|x l IH]; [done|]. intros _.
  destruct l as [|y l'].
  - exists [], x, []. by repeat split.
  - destruct IH as (pre & b & post & Hl & Hb & Hpre & Hpost); [done|].
    apply get_best_ant_head in Hb as [rest Hrest].
    destruct (ant_lt b x) eqn:Hlt.
    + exists (x :: pre), b, post. split; [by rewrite Hl|]. split.
      * apply get_best_ant_head.
        change (sorted (x :: y :: l'))
          with (insert_sorted x (sorted (y :: l'))).
        rewrite Hrest. simpl. rewrite Hlt. eauto.
      * split; [|done]. constructor; [|done]. by apply ant_lt_spec.
    + exists [], x, (y :: l'). split; [done|]. split.
      * apply get_best_ant_head.
        change (sorted (x :: y :: l'))
          with (insert_sorted x (sorted (y :: l'))).
        rewrite Hrest. simpl. rewrite Hlt. eauto.
      * split; [constructor|]. apply ant_lt_false in Hlt.
        rewrite Hl. apply Forall_app. split; [|constructor].
        -- eapply Forall_impl; [exact Hpre|]. intros a Ha.
           eapply ant_le_trans; [exact Hlt|]. by apply Qlt_le_weak.
        -- done.
        -- eapply Forall_impl; [exact Hpost|]. intros a Ha.
           by eapply ant_le_trans.
Qed.

End BestAnt.

(** X2. [get_best_ant] raises [IndexError] on an empty colony; on any
    other it returns the first ant of least distance in the order of the
    colony: every ant before it is strictly longer, no ant after it is
    shorter.  It returns the ant itself, not a copy. *)
Theorem get_best_ant_first_minimum {A : Type} `{AntClass A}
    (ants : list (Ant A)) :
  (ants = [] ∧ get_best_ant ants = Raise IndexError)
  ∨ (∃ pre best post,
       ants = pre ++ best :: post
       ∧ get_best_ant ants = Ok best
       ∧ Forall (λ a, (distance (body best) < distance (body a))%Q) pre
       ∧ Forall (λ a, (distance (body best) <= distance (body a))%Q) post).
Proof.
  destruct ants as [|x l]; [by left|]. right.
  by apply get_best_ant_first.
Qed.

(** X3. With two ants or more, the ant that [get_best_ant] returns is the
    first of the ants that [update_scent] selects: the best ant of a
    colony always lays scent. *)
Theorem best_ant_lays_scent {A : Type} `{AntClass A}
    (ants : list (Ant A)) (best : Ant A) :
  2 ≤ length ants → get_best_ant ants = Ok best →
  ∃ rest, better_half ants = best :: rest.
Proof.
  intros Hlen [l Hl]%get_best_ant_head. unfold better_half. rewrite Hl.
  destruct (length ants / 2) as [|k] eqn:Hk.
  - apply Nat.div_small_iff in Hk; lia.
  - simpl. eauto.
Qed.

Lemma best_ant_lays_scent_witness :
  2 ≤ length three_ants
  ∧ get_best_ant three_ants = Ok (tour 1 2 [(0, 2); (2, 1)])
  ∧ ∃ rest, better_half three_ants = tour 1 2 [(0, 2); (2, 1)] :: rest.
Proof.
  split; [simpl; lia|]. split; [reflexivity|].
  apply (best_ant_lays_scent three_ants); [simpl; lia|reflexivity].
Defined.

(** *** Colony construction *)

Section Colonies.
Context {A : Type} `{AntClass A}.

Lemma round_robin_loop (s : Solver) (k a c : nat) (acc : list (Ant A)) :
  nodes (world s) ≠ [] →
  ∃ starts,
    for_each
      (λ '(ants, nid) i,
         if length (nodes (world s)) =? 0 then Raise ZeroDivisionError
         else match nodes (world s) !! (i `mod` length (nodes (world s))) with
              | Some start => Ok (ants ++ [new_ant s nid start], S nid)
              | None => Raise IndexError
              end)
      (seq a k) (acc, c)
    = Ok (acc ++ imap (λ j x, new_ant s (c + j) x) starts, c + k)
    ∧ length starts = k
    ∧ ∀ j, j < k →
        starts !! j
        = nodes (world s) !! ((a + j) `mod` length (nodes (world s))).
Proof.
  intros Hnodes.
  assert (length (nodes (world s)) ≠ 0) as Hn.
  { by destruct (nodes (world s)). }
  match goal with |- context [for_each ?f0 _ _] => set (f := f0) end.
  revert a c acc. induction k as [|k IH]; intros a c acc.
  - exists []. simpl. rewrite app_nil_r, Nat.add_0_r.
    split; [done|]. split; [done|]. lia.
  - destruct (lookup_lt_is_Some_2 (nodes (world s))
                (a `mod` length (nodes (world s)))) as [start Hstart].
    { by apply Nat.mod_upper_bound. }
    assert (f (acc, c) a = Ok (acc ++ [new_ant s c start], S c)) as Hstep.
    { unfold f. by rewrite (proj2 (Nat.eqb_neq _ _) Hn), Hstart. }
    change (for_each f (seq a (S k)) (acc, c))
      with (do s' <- f (acc, c) a; for_each f (seq (S a) k) s').
    rewrite Hstep. cbn [obind].
    destruct (IH (S a) (S c) (acc ++ [new_ant s c start]))
      as (starts & -> & Hlen & Hat).
    exists (start :: starts). split; [|split].
    + rewrite <- app_assoc. simpl. rewrite Nat.add_0_r.
      do 2 f_equal; [|lia]. do 2 f_equal.
      apply imap_ext. intros j x _. simpl. f_equal. lia.
    + simpl. by rewrite Hlen.
    + intros [|j] Hj; simpl.
      * by rewrite Nat.add_0_r.
      * rewrite Hat by lia. do 2 f_equal. lia.
Qed.

Lemma random_ants_loop_total (s : Solver) (fuel : nat) (starts : list Node)
    (ants : list (Ant A)) (g : Rng) (nid : nat) :
  length starts < fuel →
  ∃ news g',
    random_ants_loop fuel s starts ants g nid
      = Ok (ants ++ news, g', nid + length news)
    ∧ oid <$> news = seq nid (length news)
    ∧ tape g' = tape g ∧ pos g' = pos g + length news
    ∧ length news = if (0 <? ant_count s)%Z then length starts else 0.
Proof.
  revert starts ants g nid.
  induction fuel as [|fuel IH]; intros starts ants g nid Hfuel; [lia|].
  simpl. destruct (0 <? ant_count s)%Z eqn:Hcount; simpl.
  - destruct starts as [|n0 starts'] eqn:Estarts.
    + exists [], g. simpl. rewrite app_nil_r, !Nat.add_0_r. by repeat split.
    + rewrite <- Estarts in *.
      assert (0 < length starts) as Hpos by (subst; simpl; lia).
      rewrite (proj2 (Nat.ltb_lt _ _) Hpos).
      pose proof (Nat.mod_upper_bound (tape g (pos g)) (length starts)) as Hr.
      set (r := tape g (pos g) `mod` length starts) in *.
      destruct (lookup_lt_is_Some_2 starts r) as [start Hstart]; [lia|].
      rewrite Hstart.
      destruct (IH (delete r starts) (ants ++ [new_ant s nid start])
                  (rng_next g) (S nid))
        as (news & g' & -> & Hoids & Htape & Hpos' & Hlen).
      { rewrite length_delete by eauto. lia. }
      rewrite length_delete in Hlen by eauto.
      exists (new_ant s nid start :: news), g'.
      rewrite <- app_assoc, fmap_cons, Hoids. simpl in *.
      split; [do 2 f_equal; lia|]. split; [done|]. split; [done|].
      split; lia.
  - exists [], g. simpl. rewrite app_nil_r, !Nat.add_0_r. by repeat split.
Qed.

End Colonies.

(** X4. In a world with nodes, [round_robin_ants] returns exactly
    [ant_count] ants (none when [ant_count] is not positive), the [i]-th
    started on node [i mod n] of the [n] nodes, as objects of consecutive
    identities; with as many ants as nodes, the ants start on the nodes
    in their order, one ant per node. *)
Theorem round_robin_ants_places {A : Type} `{AntClass A}
    (s : Solver) (nid : nat) :
  nodes (world s) ≠ [] →
  ∃ starts,
    round_robin_ants (A:=A) s nid
      = Ok (imap (λ i n, new_ant s (nid + i) n) starts,
            nid + Z.to_nat (ant_count s))
    ∧ length starts = Z.to_nat (ant_count s)
    ∧ (∀ i, i < Z.to_nat (ant_count s) →
         starts !! i
         = nodes (world s) !! (i `mod` length (nodes (world s))))
    ∧ (Z.to_nat (ant_count s) = length (nodes (world s)) →
       starts = nodes (world s)).
Proof.
  intros Hnodes. unfold round_robin_ants, py_range.
  destruct (round_robin_loop s (Z.to_nat (ant_count s)) 0 nid [] Hnodes)
    as (starts & Hrun & Hlen & Hat).
  exists starts. split; [exact Hrun|]. split; [done|]. split; [done|].
  intros Hsame. apply list_eq. intros i.
  destruct (decide (i < length starts)) as [Hi|Hi].
  - rewrite Hat by lia. simpl. f_equal. apply Nat.mod_small. lia.
  - rewrite !lookup_ge_None_2; [done|lia|lia].
Qed.

Lemma round_robin_ants_places_witness :
  nodes (world (with_ant_count 7 (Solver_init triangle))) ≠ []
  ∧ ∃ starts,
      round_robin_ants (A:=Walker) (with_ant_count 7 (Solver_init triangle)) 4
        = Ok (imap (λ i n,
                      new_ant (with_ant_count 7 (Solver_init triangle))
                        (4 + i) n) starts,
              4 + 7)
      ∧ length starts = 7
      ∧ (∀ i, i < 7 → starts !! i = [0; 1; 2] !! (i `mod` 3))
      ∧ (7 = 3 → starts = [0; 1; 2]).
Proof.
  split; [done|].
  exact (round_robin_ants_places (A:=Walker)
           (with_ant_count 7 (Solver_init triangle)) 4
           (λ E, nil_cons (eq_sym E))).
Defined.

(** X5. In a world without nodes, [round_robin_ants] with a positive
    [ant_count] raises [ZeroDivisionError]: the index [i % n] is taken
    with [n = 0]. *)
Theorem round_robin_ants_no_nodes {A : Type} `{AntClass A}
    (s : Solver) (nid : nat) :
  nodes (world s) = [] → (1 <= ant_count s)%Z →
  round_robin_ants (A:=A) s nid = Raise ZeroDivisionError.
Proof.
  intros Hnodes Hcount. unfold round_robin_ants, py_range.
  destruct (Z.to_nat (ant_count s)) as [|k] eqn:Hk; [lia|].
  simpl. by rewrite Hnodes.
Qed.

Lemma round_robin_ants_no_nodes_witness :
  nodes (world (Solver_init no_nodes)) = []
  ∧ (1 <= ant_count (Solver_init no_nodes))%Z
  ∧ round_robin_ants (A:=Walker) (Solver_init no_nodes) 0
    = Raise ZeroDivisionError.
Proof.
  split; [reflexivity|]. split; [by intros [=]|].
  apply (round_robin_ants_no_nodes (A:=Walker) (Solver_init no_nodes) 0);
    [reflexivity|by intros [=]].
Defined.

(** X6. [random_ants] never raises.  It returns new objects of
    consecutive identities and draws exactly one random number per ant;
    it makes one ant per node when [ant_count] is positive and no ant,
    without a draw, when it is not. *)
Theorem random_ants_total {A : Type} `{AntClass A}
    (s : Solver) (g : Rng) (nid : nat) :
  ∃ (ants : list (Ant A)) g',
    random_ants s g nid = Ok (ants, g', nid + length ants)
    ∧ oid <$> ants = seq nid (length ants)
    ∧ tape g' = tape g ∧ pos g' = pos g + length ants
    ∧ length ants
      = if (0 <? ant_count s)%Z then length (nodes (world s)) else 0.
Proof.
  unfold random_ants.
  destruct (random_ants_loop_total s (S (length (nodes (world s))))
              (nodes (world s)) [] g nid)
    as (news & g' & Hrun & Hoids & Htape & Hpos & Hlen); [lia|].
  exists news, g'. by rewrite Hrun.
Qed.

(** *** [find_solutions], whatever the ants do *)

Section Decay.
Context {A : Type} `{AntClass A}.
Implicit Types (s : Solver) (ants : list (Ant A)) (ph : Store) (g : Rng).

Lemma decayed_refl s ph : decayed s ph ph.
Proof. intros e. exists 0. by split. Qed.

Lemma decayed_trans s ph1 ph2 ph3 :
  decayed s ph1 ph2 → decayed s ph2 ph3 → decayed s ph1 ph3.
Proof.
  intros H12 H23 e.
  destruct (H12 e) as (k1 & E1 & Hk1), (H23 e) as (k2 & E2 & Hk2).
  exists (k2 + k1). split.
  - by rewrite Nat.iter_add, <- E1.
  - intros Hk. destruct k1 as [|k1]; [apply Hk2; lia|by apply Hk1].
Qed.

Lemma turn_Ok_inv s (ant ant' : Ant A) ph ph' g g' (d d' : nat) :
  turn s ant ph g d = Ok (ant', ph', g', d') →
  oid ant' = oid ant
  ∧ d' = d + (if can_move (body ant) then 0 else 1)
  ∧ (can_move (body ant) = false → ant' = ant ∧ ph' = ph ∧ g' = g)
  ∧ decayed s ph ph'.
Proof.
  unfold turn. destruct (can_move (body ant)) eqn:Hcan.
  - destruct (move (world s) ph g (body ant)) as [[m a'] g1].
    intros (e0 & He0%edge_at_Ok & [= <- <- <- <-])%obind_Ok. simpl.
    split; [done|]. split; [lia|]. split; [done|].
    intros e. destruct (decide (e0 = e)) as [->|Hne].
    + exists 1. rewrite fn_lookup_insert. split; [done|]. eauto.
    + exists 0. rewrite fn_lookup_insert_ne by done. by split.
  - intros [= <- <- <- <-]. split; [done|]. split; [lia|].
    split; [done|]. apply decayed_refl.
Qed.

Lemma sweep_Ok_inv s ants ants' ph ph' g g' (d d' : nat) :
  sweep s ants ph g d = Ok (ants', ph', g', d') →
  oid <$> ants' = oid <$> ants
  ∧ d' = d + count_done ants
  ∧ (all_done ants → ants' = ants ∧ ph' = ph ∧ g' = g)
  ∧ decayed s ph ph'.
Proof.
  revert ants' ph ph' g g' d d'.
  induction ants as [|ant rest IH]; intros ants' ph ph' g g' d d'.
  - intros [= <- <- <- <-]. unfold count_done. simpl.
    split; [done|]. split; [lia|]. split; [done|]. apply decayed_refl.
  - simpl sweep.
    intros ([[[ant1 ph1] g1] d1] & Hturn & Hrest)%obind_Ok.
    apply obind_Ok in Hrest
      as ([[[rest' ph2] g2] d2] & Hsweep & [= <- <- <- <-]).
    apply turn_Ok_inv in Hturn as (Hoid & Hd1 & Hstay & Hdec1).
    apply IH in Hsweep as (Hoids & Hd2 & Hstays & Hdec2).
    rewrite !fmap_cons, Hoid, Hoids. split; [done|].
    unfold count_done in *. simpl.
    destruct (can_move (body ant)) eqn:Hcan; simpl in *.
    + split; [lia|]. split; [|by eapply decayed_trans].
      intros [? _]%Forall_cons_1. congruence.
    + split; [lia|]. split; [|by eapply decayed_trans].
      intros [_ Hall]%Forall_cons_1.
      destruct Hstay as (-> & -> & ->); [done|].
      by destruct (Hstays Hall) as (-> & -> & ->).
Qed.

Lemma find_solutions_loop_Ok_inv (fuel : nat) s ants ants' ph ph' g g'
    (d : nat) :
  find_solutions_loop fuel s ants ph g d = Ok (ants', ph', g') →
  (length ants ≤ d → all_done ants) →
  oid <$> ants' = oid <$> ants ∧ all_done ants' ∧ decayed s ph ph'.
Proof.
  revert ants ph g d.
  induction fuel as [|fuel IH]; intros ants ph g d; [done|].
  simpl find_solutions_loop. destruct (d <? length ants) eqn:Hd.
  - intros ([[[ants1 ph1] g1] d1] & Hsweep & Hloop)%obind_Ok _.
    apply sweep_Ok_inv in Hsweep as (Hoids & Hd1 & Hstay & Hdec).
    apply IH in Hloop as (Hoids' & Hdone & Hdec').
    + split; [congruence|]. split; [done|]. by eapply decayed_trans.
    + assert (length ants1 = length ants) as Hlen.
      { by rewrite <- (length_fmap oid ants1), Hoids, length_fmap. }
      intros Hfull.
      assert (all_done ants) as Hall.
      { apply count_done_all. pose proof (count_done_le ants). lia. }
      by destruct (Hstay Hall) as (-> & _).
  - intros [= <- <- <-] Hall. apply Nat.ltb_ge in Hd.
    split; [done|]. split; [by apply Hall|]. apply decayed_refl.
Qed.

Lemma find_solutions_Ok_inv (fuel : nat) s ants ants' ph ph' g g' :
  find_solutions fuel s ants ph g = Ok (ants', ph', g') →
  oid <$> ants' = oid <$> ants ∧ all_done ants' ∧ decayed s ph ph'.
Proof.
  intros Hrun. eapply find_solutions_loop_Ok_inv; [exact Hrun|].
  intros Hlen. destruct ants; [constructor|simpl in Hlen; lia].
Qed.

Lemma sweep_all_done s ants ph g (d : nat) :
  all_done ants → sweep s ants ph g d = Ok (ants, ph, g, d + length ants).
Proof.
  intros Hall. revert d.
  induction Hall as [|ant rest Hant _ IH]; intros d; simpl.
  - by rewrite Nat.add_0_r.
  - rewrite (turn_stays _ _ _ _ _ Hant). simpl. rewrite IH. simpl.
    do 2 f_equal. lia.
Qed.

End Decay.


Lemma iter_decay_range (r x : Q) (k : nat) :
  (0 <= r)%Q → (0 <= x)%Q → (0 <= Nat.iter k (λ y : Q, y * r) x)%Q.
Proof.
  intros Hr Hx. induction k as [|k IH]; simpl; [done|].
  by apply Qmult_le_0_compat.
Qed.

Lemma iter_decay_le (r x : Q) (k : nat) :
  (0 <= r)%Q → (r <= 1)%Q → (0 <= x)%Q →
  (Nat.iter k (λ y : Q, y * r) x <= x)%Q.
Proof.
  intros Hr Hr1 Hx. induction k as [|k IH]; simpl; [apply Qle_refl|].
  eapply Qle_trans; [|exact IH].
  rewrite <- (Qmult_1_r (Nat.iter k _ x)) at 2.
  apply Qmult_le_compat_nonneg; split;
    [by apply iter_decay_range|apply Qle_refl|done|done].
Qed.



(** X8. With [0 <= rho <= 1], [find_solutions] raises no pheromone level
    that is not negative, and makes none of them negative.  (On floats a
    level can reach zero: see [local_decay_underflows].) *)
Theorem find_solutions_only_decays {A : Type} `{AntClass A}
    (fuel : nat) (s : Solver) (ants ants' : list (Ant A))
    (ph ph' : Store) (g g' : Rng) (e : EdgeRef) :
  (0 <= rho s)%Q → (rho s <= 1)%Q →
  find_solutions fuel s ants ph g = Ok (ants', ph', g') →
  (0 <= ph e)%Q → (0 <= ph' e)%Q ∧ (ph' e <= ph e)%Q.
Proof.
  intros Hr Hr1 (_ & _ & Hdec)%find_solutions_Ok_inv Hpos.
  destruct (Hdec e) as (k & -> & _).
  split; [by apply iter_decay_range|by apply iter_decay_le].
Qed.

Lemma find_solutions_only_decays_witness :
  ∃ (ants' : list (Ant Walker)) ph' g',
    find_solutions 8 (Solver_init triangle) three_starts
      (reset_pheromone (Solver_init triangle) ph0) g0
      = Ok (ants', ph', g')
    ∧ (0 <= ph' 0%nat)%Q
    ∧ (ph' 0%nat <= reset_pheromone (Solver_init triangle) ph0 0%nat)%Q.
Proof.
  eexists _, _, _. split; [vm_compute; reflexivity|].
  eapply (find_solutions_only_decays 8 (Solver_init triangle) three_starts
            _ (reset_pheromone (Solver_init triangle) ph0) _ g0 _ 0);
    [by intros [=]|by intros [=]|vm_compute; reflexivity|by intros [=]].
Defined.

(** On floats the local decay reaches zero: [0.01] halved 1100 times. *)
Example local_decay_underflows :
  Nat.iter 1100 (Binary64.decay 0.5) Binary64.one_hundredth = 0%float.
Proof. vm_compute. reflexivity. Qed.

(** X9. A colony in which no ant can move, the empty colony and the one
    that [find_solutions] returned among them, is returned as it is after
    one pass, with the pheromone and the random generator untouched. *)
Theorem find_solutions_settled {A : Type} `{AntClass A}
    (fuel : nat) (s : Solver) (ants : list (Ant A)) (ph : Store) (g : Rng) :
  all_done ants → 2 ≤ fuel →
  find_solutions fuel s ants ph g = Ok (ants, ph, g).
Proof.
  intros Hall Hfuel. unfold find_solutions.
  destruct fuel as [|[|fuel]]; [lia|lia|].
  simpl find_solutions_loop. destruct (0 <? length ants) eqn:Hlen; [|done].
  rewrite (sweep_all_done _ _ _ _ _ Hall). simpl.
  by rewrite Nat.ltb_irrefl.
Qed.

Lemma find_solutions_settled_witness :
  all_done three_ants
  ∧ find_solutions 2 (Solver_init triangle) three_ants ph0 g0
    = Ok (three_ants, ph0, g0).
Proof.
  assert (all_done three_ants) as Hall by (by repeat constructor).
  split; [exact Hall|].
  apply (find_solutions_settled 2 (Solver_init triangle) three_ants ph0 g0
           Hall).
  lia.
Defined.

(** X10. When the first ant of the colony that can move returns a key
    that [world.edges] does not have, [find_solutions] raises [KeyError]. *)
Theorem find_solutions_missing_key {A : Type} `{AntClass A}
    (fuel : nat) (s : Solver) (pre rest : list (Ant A)) (ant : Ant A)
    (ph : Store) (g : Rng) :
  all_done pre → can_move (body ant) = true →
  edges (world s) !! (move (world s) ph g (body ant)).1.1 = None →
  1 ≤ fuel →
  find_solutions fuel s (pre ++ ant :: rest) ph g = Raise KeyError.
Proof.
  intros Hpre Hcan Hkey Hfuel. unfold find_solutions.
  destruct fuel as [|fuel]; [lia|]. simpl find_solutions_loop.
  rewrite length_app. simpl length.
  rewrite (proj2 (Nat.ltb_lt _ _)) by lia.
  assert (∀ d, sweep s (pre ++ ant :: rest) ph g d = Raise KeyError) as Hsweep.
  { induction Hpre as [|a pre Ha _ IH]; intros d; simpl.
    - unfold turn, edge_at. rewrite Hcan.
      destruct (move (world s) ph g (body ant)) as [[m a'] g'].
      simpl in Hkey. by rewrite Hkey.
    - rewrite (turn_stays _ _ _ _ _ Ha). simpl. by rewrite IH. }
  by rewrite Hsweep.
Qed.

Lemma find_solutions_missing_key_witness :
  all_done [tour 5 2 [(0, 1); (1, 2)]]
  ∧ find_solutions 1 (Solver_init five_nodes)
      ([tour 5 2 [(0, 1); (1, 2)]]
       ++ new_ant (Solver_init triangle) 0 0 :: [])
      ph0 g0
    = Raise KeyError.
Proof.
  assert (all_done [tour 5 2 [(0, 1); (1, 2)]]) as Hall
    by (by repeat constructor).
  split; [exact Hall|].
  apply (find_solutions_missing_key 1 (Solver_init five_nodes)
           [tour 5 2 [(0, 1); (1, 2)]] []
           (new_ant (Solver_init triangle) 0 0) ph0 g0 Hall);
    [reflexivity|reflexivity|lia].
Defined.

(** *** Exceptions of the pheromone updates *)

Lemma for_each_raises {B S} (f : S → B → outcome S) (pre post : list B)
    (x : B) (s0 s1 : S) (e : exn) :
  for_each f pre s0 = Ok s1 → f s1 x = Raise e →
  for_each f (pre ++ x :: post) s0 = Raise e.
Proof.
  intros Hpre Hx. rewrite for_each_app, Hpre. simpl. by rewrite Hx.
Qed.

(** X11. [update_scent] divides [q] by the distance of a selected ant
    before it looks at the ant's moves: the first selected ant of distance
    0 makes it raise [ZeroDivisionError], also when that ant has no move
    at all. *)
Theorem update_scent_zero_distance {A : Type} `{AntClass A}
    (s : Solver) (ants pre post : list (Ant A)) (a : Ant A) (ph : Store) :
  better_half ants = pre ++ a :: post →
  Forall (λ a, ¬ (distance (body a) == 0)%Q
               ∧ Forall (λ m, is_Some (edges (world s) !! m))
                   (moves (body a))) pre →
  (distance (body a) == 0)%Q →
  update_scent s ants ph = Raise ZeroDivisionError.
Proof.
  intros Hhalf Hpre Hzero. unfold update_scent. rewrite Hhalf.
  destruct (lay_scents_Ok s pre ph Hpre) as [ph1 Hph1].
  apply (for_each_raises _ _ _ _ _ ph1); [done|].
  unfold lay_scent, py_div. apply Qeq_bool_iff in Hzero. by rewrite Hzero.
Qed.

Lemma update_scent_zero_distance_witness :
  better_half idle_ants = [] ++ tour 0 0 [] :: []
  ∧ (distance (body (tour 0 0 [])) == 0)%Q
  ∧ update_scent (Solver_init triangle) idle_ants ph0
    = Raise ZeroDivisionError.
Proof.
  split; [reflexivity|]. split; [reflexivity|].
  apply (update_scent_zero_distance (Solver_init triangle) idle_ants
           [] [] (tour 0 0 []) ph0); [reflexivity|constructor|reflexivity].
Defined.

(** X12. [trace_elite] with a truthy [elite] on an ant of distance 0: it
    returns the pheromone as it was when the ant has no move; otherwise it
    raises on the first move, [KeyError] when the move is no key of
    [world.edges] (the target is looked up first) and [ZeroDivisionError]
    when it is. *)
Theorem trace_elite_zero_distance {A : Type} `{AntClass A}
    (s : Solver) (ant : Ant A) (ph : Store) :
  truthy (elite s) = true → (distance (body ant) == 0)%Q →
  match moves (body ant) with
  | [] => trace_elite s ant ph = Ok ph
  | m :: _ =>
      trace_elite s ant ph
      = Raise match edges (world s) !! m with
              | Some _ => ZeroDivisionError
              | None => KeyError
              end
  end.
Proof.
  intros Helite Hzero. unfold trace_elite. rewrite Helite.
  destruct (moves (body ant)) as [|m ms]; [done|].
  simpl. unfold trace_move, edge_at, py_div.
  destruct (edges (world s) !! m); [|done]. simpl.
  apply Qeq_bool_iff in Hzero. by rewrite Hzero.
Qed.

Lemma trace_elite_zero_distance_witness :
  truthy (elite (Solver_init triangle)) = true
  ∧ (distance (body weightless_ant) == 0)%Q
  ∧ trace_elite (Solver_init triangle) weightless_ant ph0
    = Raise ZeroDivisionError
  ∧ trace_elite (Solver_init five_nodes) weightless_ant ph0
    = Raise KeyError.
Proof.
  split; [reflexivity|]. split; [reflexivity|]. split.
  - exact (trace_elite_zero_distance (Solver_init triangle) weightless_ant
             ph0 eq_refl eq_refl).
  - exact (trace_elite_zero_distance (Solver_init five_nodes) weightless_ant
             ph0 eq_refl eq_refl).
Defined.

(** *** [solve] and [solutions] side by side *)

Section Loops.
Context {A : Type} `{AntClass A}.
Implicit Types (s : Solver) (ph : Store) (g : Rng) (gb : option (Ant A)).

(** The global best that a turn leaves is the one before, or strictly
    shorter. *)
Lemma iteration_best (fuel : nat) s gb ph g (nid : nat) (it : Iteration) :
  iteration fuel s gb ph g nid = Ok it →
  (it_improved it = false → gb = Some (it_global_best it))
  ∧ ∀ b, gb = Some b → ant_le (it_global_best it) b.
Proof.
  intros (ants0 & g1 & nid1 & ph1 & _ & _ & _ & _ & Himp & Hcase & _)
           %iteration_inv.
  destruct (it_improved it).
  - split; [done|]. intros b ->. destruct Hcase as [-> _].
    simpl in Himp. symmetry in Himp. apply ant_lt_spec in Himp.
    by apply Qlt_le_weak.
  - destruct Hcase as [-> _]. split; [done|].
    intros b [= <-]. apply Qle_refl.
Qed.

Lemma loops_agree (fuel n : nat) s gb ph g (nid : nat) :
  match solve_loop fuel s n gb ph g nid with
  | Ok r =>
      ∃ ys, solutions_loop fuel s n gb ph g nid = (ys, Ok tt)
            ∧ r = match last ys with Some y => Some y | None => gb end
  | Raise e => ∃ ys, solutions_loop fuel s n gb ph g nid = (ys, Raise e)
  | OutOfFuel => ∃ ys, solutions_loop fuel s n gb ph g nid = (ys, OutOfFuel)
  end.
Proof.
  revert gb ph g nid. induction n as [|n IH]; intros gb ph g nid.
  - simpl. by exists [].
  - pose proof (solutions_loop_stops fuel n s gb ph g nid) as Hstops.
    simpl solve_loop.
    destruct (iteration fuel s gb ph g nid) as [it|e|] eqn:Hit;
      simpl obind; [|done..].
    rewrite (solutions_loop_step _ _ _ _ _ _ _ _ Hit).
    specialize (IH (Some (it_global_best it)) (it_pheromone it) (it_rng it)
                  (it_next_id it)).
    destruct (solutions_loop fuel s n (Some (it_global_best it))
                (it_pheromone it) (it_rng it) (it_next_id it)) as [ys r].
    destruct (solve_loop fuel s n (Some (it_global_best it))
                (it_pheromone it) (it_rng it) (it_next_id it)) as [b|e|];
      [|destruct IH as [ys' [= -> ->]]; eauto..].
    destruct IH as (ys' & [= -> ->] & ->).
    eexists. split; [done|].
    destruct (iteration_best _ _ _ _ _ _ _ Hit) as [Hsame _].
    destruct ys' as [|y ys'] using rev_ind.
    + rewrite app_nil_r. destruct (it_improved it); [done|]. simpl.
      symmetry. by apply Hsame.
    + by rewrite app_assoc, !last_snoc.
Qed.

Lemma solve_loop_shorter (fuel m : nat) s (b : Ant A) ph g (nid : nat)
    (r : option (Ant A)) :
  solve_loop fuel s m (Some b) ph g nid = Ok r →
  ∃ b', r = Some b' ∧ ant_le b' b.
Proof.
  revert b ph g nid. induction m as [|m IH]; intros b ph g nid; simpl.
  - intros [= <-]. exists b. split; [done|apply Qle_refl].
  - intros (it & Hit & Hrest)%obind_Ok.
    destruct (IH _ _ _ _ Hrest) as (b' & -> & Hle).
    exists b'. split; [done|].
    destruct (iteration_best _ _ _ _ _ _ _ Hit) as [_ Hbest].
    eapply ant_le_trans; [exact Hle|]. by apply Hbest.
Qed.

Lemma solve_loop_more (fuel n m : nat) s gb ph g (nid : nat) (b : Ant A)
    (r : option (Ant A)) :
  solve_loop fuel s n gb ph g nid = Ok (Some b) →
  solve_loop fuel s (n + m) gb ph g nid = Ok r →
  ∃ b', r = Some b' ∧ ant_le b' b.
Proof.
  revert gb ph g nid. induction n as [|n IH]; intros gb ph g nid; simpl.
  - intros [= ->]. apply solve_loop_shorter.
  - intros (it & Hit & Hrest)%obind_Ok. rewrite Hit. simpl. by apply IH.
Qed.

Lemma solutions_loop_more (fuel n m : nat) s gb ph g (nid : nat)
    (ys : list (Ant A)) :
  solutions_loop fuel s n gb ph g nid = (ys, Ok tt) →
  ∃ more r, solutions_loop fuel s (n + m) gb ph g nid = (ys ++ more, r).
Proof.
  revert gb ph g nid ys. induction n as [|n IH]; intros gb ph g nid ys.
  - intros [= <-]. simpl.
    destruct (solutions_loop fuel s m gb ph g nid) as [more r]. eauto.
  - pose proof (solutions_loop_stops fuel n s gb ph g nid) as Hstops.
    destruct (iteration fuel s gb ph g nid) as [it|e|] eqn:Hit.
    + change (S n + m) with (S (n + m)).
      rewrite !(solutions_loop_step _ _ _ _ _ _ _ _ Hit).
      destruct (solutions_loop fuel s n (Some (it_global_best it))
                  (it_pheromone it) (it_rng it) (it_next_id it))
        as [ys0 r0] eqn:Hn.
      intros [= <- ->].
      destruct (IH _ _ _ _ _ Hn) as (more & r & ->).
      exists more, r. by rewrite app_assoc.
    + destruct Hstops as [ys' ->]. by intros [=].
    + destruct Hstops as [ys' ->]. by intros [=].
Qed.

End Loops.

(** X13. [solve(limit)] returns the last ant that [solutions(limit)]
    yields ([None] when it yields none, which is when [limit] is not
    positive), and it raises exactly when [solutions], after the ants it
    had yielded, raises the same exception. *)
Theorem solve_last_of_solutions {A : Type} `{AntClass A}
    (fuel : nat) (s : Solver) (limit : Z) (ph : Store) (g : Rng) (nid : nat) :
  match solve (A:=A) fuel s limit ph g nid with
  | Ok r => ∃ ys, solutions fuel s limit ph g nid = (ys, Ok tt) ∧ r = last ys
  | Raise e => ∃ ys, solutions fuel s limit ph g nid = (ys, Raise e)
  | OutOfFuel => ∃ ys, solutions fuel s limit ph g nid = (ys, OutOfFuel)
  end.
Proof.
  unfold solve, solutions.
  pose proof (loops_agree fuel (Z.to_nat limit) s None
                (reset_pheromone s ph) g nid) as Hagree.
  destruct (solve_loop fuel s (Z.to_nat limit) None (reset_pheromone s ph)
              g nid) as [r|e|]; [|done..].
  destruct Hagree as (ys & Hys & ->). exists ys. split; [done|].
  by destruct (last ys).
Qed.

(** X14. From the same pheromone, random generator and next identity, a
    run of [solve] with more turns returns an ant that is no longer than
    the one a run with fewer turns returns. *)
Theorem solve_more_turns {A : Type} `{AntClass A}
    (fuel : nat) (s : Solver) (limit limit' : Z) (ph : Store) (g : Rng)
    (nid : nat) (b b' : Ant A) :
  (limit <= limit')%Z →
  solve fuel s limit ph g nid = Ok (Some b) →
  solve fuel s limit' ph g nid = Ok (Some b') →
  ant_le b' b.
Proof.
  unfold solve. intros Hle Hfew Hmore.
  replace (Z.to_nat limit')
    with (Z.to_nat limit + (Z.to_nat limit' - Z.to_nat limit)) in Hmore
    by lia.
  destruct (solve_loop_more _ _ _ _ _ _ _ _ _ _ Hfew Hmore) as (b0 & [= <-] & ?).
  done.
Qed.

Lemma solve_more_turns_witness :
  ∃ b b' : Ant Walker,
    solve 8 (Solver_init triangle) 1 ph0 g0 0 = Ok (Some b)
    ∧ solve 8 (Solver_init triangle) 3 ph0 g0 0 = Ok (Some b')
    ∧ ant_le b' b.
Proof.
  eexists _, _. split; [vm_compute; reflexivity|].
  split; [vm_compute; reflexivity|].
  eapply (solve_more_turns 8 (Solver_init triangle) 1 3 ph0 g0 0);
    [by intros [=]|vm_compute; reflexivity|vm_compute; reflexivity].
Defined.

(** X15. The ants that [solutions] yields for a [limit] on which it runs
    to its end are the first ants that it yields, from the same start, for
    any greater [limit]. *)
Theorem solutions_extend {A : Type} `{AntClass A}
    (fuel : nat) (s : Solver) (limit limit' : Z) (ph : Store) (g : Rng)
    (nid : nat) (ys : list (Ant A)) :
  (limit <= limit')%Z →
  solutions fuel s limit ph g nid = (ys, Ok tt) →
  ∃ more r, solutions fuel s limit' ph g nid = (ys ++ more, r).
Proof.
  unfold solutions. intros Hle Hfew.
  replace (Z.to_nat limit')
    with (Z.to_nat limit + (Z.to_nat limit' - Z.to_nat limit)) by lia.
  by apply solutions_loop_more.
Qed.

Lemma solutions_extend_witness :
  ∃ (ys more : list (Ant Walker)) r,
    solutions 8 (Solver_init triangle) 1 ph0 g0 0 = (ys, Ok tt)
    ∧ solutions 8 (Solver_init triangle) 3 ph0 g0 0 = (ys ++ more, r).
Proof.
  set (ys := (solutions (A:=Walker) 8 (Solver_init triangle) 1 ph0 g0 0).1).
  assert (solutions 8 (Solver_init triangle) 1 ph0 g0 0 = (ys, Ok tt))
    as Hfew by (vm_compute; reflexivity).
  destruct (solutions_extend 8 (Solver_init triangle) 1 3 ph0 g0 0 ys)
    as (more & r & Hmore); [by intros [=]|exact Hfew|].
  exists ys, more, r. split; [exact Hfew|exact Hmore].
Defined.

(** X16. On a world without nodes every colony is empty: [solve] with a
    positive [limit] raises [IndexError] in [get_best_ant], whatever
    [ant_count] is, and [solutions] raises it before it yields. *)
Theorem solve_no_nodes {A : Type} `{AntClass A}
    (fuel : nat) (s : Solver) (limit : Z) (ph : Store) (g : Rng) (nid : nat) :
  nodes (world s) = [] → (1 <= limit)%Z → 1 ≤ fuel →
  solve (A:=A) fuel s limit ph g nid = Raise IndexError
  ∧ solutions (A:=A) fuel s limit ph g nid = ([], Raise IndexError).
Proof.
  intros Hnodes Hlimit Hfuel. unfold solve, solutions.
  destruct (Z.to_nat limit) as [|n] eqn:Hn; [lia|].
  assert (∀ ph',
            iteration_head (A:=A) fuel s None ph' g nid = Raise IndexError)
    as Hhead.
  { intros ph'. unfold iteration_head, build_colony.
    destruct fuel as [|fuel]; [lia|].
    destruct (ant_count s <? 1)%Z eqn:Hcount.
    - apply Z.ltb_lt in Hcount.
      by rewrite (round_robin_ants_none s nid Hcount).
    - unfold random_ants. rewrite Hnodes. simpl.
      by rewrite andb_false_r. }
  simpl. by rewrite iteration_split, !Hhead.
Qed.

Lemma solve_no_nodes_witness :
  nodes (world (Solver_init no_nodes)) = []
  ∧ solve (A:=Walker) 1 (Solver_init no_nodes) 10 ph0 g0 0
    = Raise IndexError
  ∧ solutions (A:=Walker) 1 (Solver_init no_nodes) 10 ph0 g0 0
    = ([], Raise IndexError).
Proof.
  split; [reflexivity|].
  apply (solve_no_nodes (A:=Walker) 1 (Solver_init no_nodes) 10 ph0 g0 0);
    [reflexivity|by intros [=]|lia].
Defined.

(** *** The pheromone is never negative *)

Section NotNegative.
Context {A : Type} `{AntClass A}.
Implicit Types (s : Solver) (ph : Store) (g : Rng) (e : EdgeRef).

Lemma update_scent_not_negative s (ants : list (Ant A)) ph ph' e :
  (0 <= t0 s)%Q → update_scent s ants ph = Ok ph' →
  (0 <= ph e)%Q → (0 <= ph' e)%Q.
Proof.
  intros Ht0 Hscent Hpos. unfold update_scent in Hscent.
  rewrite (lay_scents_at _ _ _ _ e Hscent).
  destruct (laid_on s e (better_half ants)) as [|p ps] eqn:Hlaid; [done|].
  eapply Qle_trans; [exact Ht0|]. apply relays_floor. by left.
Qed.

Lemma trace_elite_nondecreasing s (ant : Ant A) ph ph' e :
  (0 <= elite s)%Q → (0 <= q s)%Q → (0 <= distance (body ant))%Q →
  trace_elite s ant ph = Ok ph' → (ph e <= ph' e)%Q.
Proof.
  intros He Hq Hd Htrace. destruct (truthy (elite s)) eqn:Helite.
  - unfold trace_elite in Htrace. rewrite Helite in Htrace.
    rewrite (trace_moves_iter _ _ _ _ _ e Htrace). apply iter_add_le.
    by apply elite_deposit_nonneg.
  - rewrite (trace_elite_falsy _ _ _ Helite) in Htrace.
    injection Htrace as <-. apply Qle_refl.
Qed.

Lemma iteration_not_negative (fuel : nat) s (gb : option (Ant A)) ph g
    (nid : nat) (it : Iteration) e :
  (0 <= t0 s)%Q → (0 <= rho s)%Q → (0 <= elite s)%Q → (0 <= q s)%Q →
  iteration fuel s gb ph g nid = Ok it →
  (0 <= distance (body (it_global_best it)))%Q →
  (0 <= ph e)%Q →
  (0 <= it_scent it e)%Q ∧ (0 <= it_pheromone it e)%Q.
Proof.
  intros Ht0 Hrho He Hq Hit Hd Hpos.
  apply iteration_inv in Hit
    as (ants0 & g1 & nid1 & ph1 & _ & Hfind & Hscent & _ & _ & _ & Htrace).
  apply find_solutions_Ok_inv in Hfind as (_ & _ & Hdec).
  destruct (Hdec e) as (k & Hk & _).
  assert (0 <= ph1 e)%Q as Hpos1.
  { rewrite Hk. by apply iter_decay_range. }
  pose proof (update_scent_not_negative _ _ _ _ e Ht0 Hscent Hpos1) as Hpos2.
  split; [done|]. destruct (truthy (elite s)).
  - eapply Qle_trans; [exact Hpos2|].
    by eapply trace_elite_nondecreasing.
  - by injection Htrace as <-.
Qed.

End NotNegative.

(** X17. With [t0], [rho], [elite] and [q] not negative, an edge whose
    pheromone is not negative never gets a negative pheromone in the turns
    of a run whose global bests have a distance that is not negative: the
    level is not negative after every [update_scent] and at the end of
    every turn. *)
Theorem pheromone_never_negative {A : Type} `{AntClass A}
    (fuel : nat) (s : Solver) (n : nat) (gb : option (Ant A)) (ph : Store)
    (g : Rng) (nid : nat) (log : list Iteration) (e : EdgeRef) :
  (0 <= t0 s)%Q → (0 <= rho s)%Q → (0 <= elite s)%Q → (0 <= q s)%Q →
  iterations fuel s n gb ph g nid = Ok log →
  Forall (λ it, (0 <= distance (body (it_global_best it)))%Q) log →
  (0 <= ph e)%Q →
  Forall (λ it, (0 <= it_scent it e)%Q ∧ (0 <= it_pheromone it e)%Q) log.
Proof.
  intros Ht0 Hrho He Hq. revert gb ph g nid log.
  induction n as [|n IH]; intros gb ph g nid log; simpl.
  - intros [= <-] _ _. constructor.
  - intros (it & Hit & (rest & Hrest & [= <-])%obind_Ok)%obind_Ok.
    intros [Hd Hds]%Forall_cons_1 Hpos.
    destruct (iteration_not_negative _ _ _ _ _ _ _ e Ht0 Hrho He Hq Hit Hd
                Hpos) as [Hscent Hend].
    constructor; [done|]. by eapply IH.
Qed.

Lemma pheromone_never_negative_witness :
  ∃ log : list (@Iteration Walker),
    iterations 8 (Solver_init triangle) 2 None
      (reset_pheromone (Solver_init triangle) ph0) g0 0 = Ok log
    ∧ Forall (λ it, (0 <= it_scent it 0%nat)%Q
                    ∧ (0 <= it_pheromone it 0%nat)%Q) log.
Proof.
  eexists. split; [vm_compute; reflexivity|].
  eapply (pheromone_never_negative 8 (Solver_init triangle) 2 None
            (reset_pheromone (Solver_init triangle) ph0) g0 0);
    [by intros [=]|by intros [=]|by intros [=]|by intros [=]
    |vm_compute; reflexivity|repeat constructor; by intros [=]
    |by intros [=]].
Defined.

(** *** The ants that a run gives back *)

Section Finished.
Context {A : Type} `{AntClass A}.
Implicit Types (s : Solver) (ph : Store) (g : Rng) (gb : option (Ant A)).

Lemma iteration_head_finished (fuel : nat) s gb ph g (nid : nat)
    (h : Iteration) :
  iteration_head fuel s gb ph g nid = Ok h →
  (∀ b, gb = Some b → can_move (body b) = false) →
  can_move (body (it_global_best h)) = false.
Proof.
  intros (ants0 & g1 & nid1 & ph1 & _ & Hfind & _ & Hbest & _ & Hcase)
           %iteration_head_inv Hgb.
  destruct (it_improved h); [|destruct Hcase as [E _]; by apply Hgb].
  destruct Hcase as [-> _]. simpl.
  apply find_solutions_Ok_inv in Hfind as (_ & Hdone & _).
  apply get_best_ant_head in Hbest as [l Hl].
  unfold all_done in Hdone. rewrite Forall_forall in Hdone.
  apply Hdone. rewrite <- (sorted_perm (it_colony h)), Hl. left.
Qed.

Lemma iteration_finished (fuel : nat) s gb ph g (nid : nat) (it : Iteration) :
  iteration fuel s gb ph g nid = Ok it →
  (∀ b, gb = Some b → can_move (body b) = false) →
  can_move (body (it_global_best it)) = false.
Proof.
  rewrite iteration_split. intros (h & Hh & Hit)%obind_Ok Hgb.
  destruct (iteration_tail_keeps _ _ _ Hit) as [_ ->].
  by eapply iteration_head_finished.
Qed.

Lemma solve_loop_finished (fuel n : nat) s gb ph g (nid : nat) (b : Ant A) :
  solve_loop fuel s n gb ph g nid = Ok (Some b) →
  (∀ b0, gb = Some b0 → can_move (body b0) = false) →
  can_move (body b) = false.
Proof.
  revert gb ph g nid. induction n as [|n IH]; intros gb ph g nid; simpl.
  - intros [= ->] Hgb. by apply Hgb.
  - intros (it & Hit & Hrest)%obind_Ok Hgb.
    apply (IH _ _ _ _ Hrest). intros b0 [= <-].
    by eapply iteration_finished.
Qed.

Lemma solutions_loop_finished (fuel n : nat) s gb ph g (nid : nat) :
  (∀ b0, gb = Some b0 → can_move (body b0) = false) →
  Forall (λ y, can_move (body y) = false)
    (solutions_loop fuel s n gb ph g nid).1.
Proof.
  revert gb ph g nid. induction n as [|n IH]; intros gb ph g nid Hgb.
  - constructor.
  - simpl solutions_loop.
    destruct (iteration_head fuel s gb ph g nid) as [h|e|] eqn:Hh;
      [|constructor..].
    pose proof (iteration_head_finished _ _ _ _ _ _ _ Hh Hgb) as Hdone.
    assert (Forall (λ y, can_move (body y) = false)
              (if it_improved h then [it_global_best h] else []))
      as Hyielded.
    { destruct (it_improved h); by repeat constructor. }
    destruct (iteration_tail s h) as [it|e|] eqn:Hit; [|done..].
    destruct (iteration_tail_keeps _ _ _ Hit) as [_ Hsame].
    specialize (IH (Some (it_global_best it)) (it_pheromone it) (it_rng it)
                  (it_next_id it)).
    destruct (solutions_loop fuel s n (Some (it_global_best it))
                (it_pheromone it) (it_rng it) (it_next_id it)) as [ys r].
    simpl in *. apply Forall_app. split; [done|].
    apply IH. intros b0 [= <-]. by rewrite Hsame.
Qed.

End Finished.

(** A stray on one node: the first turn yields its copy, and the
    elitist trace of the turn then raises [KeyError]. *)
Example solutions_yields_then_raises :
  @solutions Stray stray_ant 2 (Solver_init one_node) 3 ph0 g0 0
  = ([{| oid := 1; body := stray |}], Raise KeyError).
Proof. reflexivity. Qed.

(** X18. Whatever the ants do, an ant that [solve] returns cannot move
    any more, and neither can any ant that [solutions] yields, the ant
    yielded in a turn whose elitist trace then raises among them: when
    the first turn gets as far as its [yield], [solutions] yields the
    global best of that turn first, however the turn ends. *)
Theorem solve_returns_finished {A : Type} `{AntClass A}
    (fuel : nat) (s : Solver) (limit : Z) (ph : Store) (g : Rng) (nid : nat) :
  (∀ b : Ant A, solve fuel s limit ph g nid = Ok (Some b) →
                can_move (body b) = false)
  ∧ Forall (λ y : Ant A, can_move (body y) = false)
      (solutions fuel s limit ph g nid).1
  ∧ (∀ h : Iteration,
       (1 <= limit)%Z →
       iteration_head fuel s None (reset_pheromone s ph) g nid = Ok h →
       ∃ rest r,
         solutions fuel s limit ph g nid = (it_global_best h :: rest, r)).
Proof.
  split; [|split].
  - intros b Hsolve. by eapply solve_loop_finished.
  - by apply solutions_loop_finished.
  - intros h Hlimit Hh. unfold solutions.
    destruct (Z.to_nat limit) as [|n] eqn:Hn; [lia|].
    simpl solutions_loop. rewrite Hh.
    apply iteration_head_inv in Hh
      as (ants0 & g1 & nid1 & ph1 & _ & _ & _ & _ & Himp & _).
    rewrite Himp. simpl.
    destruct (iteration_tail s h) as [it|e|]; [|eauto..].
    destruct (solutions_loop fuel s n (Some (it_global_best it))
                (it_pheromone it) (it_rng it) (it_next_id it)) as [ys r].
    eauto.
Qed.
